(** * Suspension components: control arm, rocker, shock, LongAccel

    A shallow embedding of [components.py].  Python and sympy numbers are
    idealised as real numbers; the two non-finite values that sympy's
    division produces ([zoo] and [nan]) are kept as separate constructors
    of [num], because the source divides by moment arms without a test.
    Reference frames are mutable Python objects that links hold by
    reference, so they live in a store indexed by references. *)

From Stdlib Require Import Reals Lra Lia Bool String Ascii List.
Import ListNotations.

Local Open Scope R_scope.

(** ** Sympy scalars *)

(** A sympy number as the moment balance sees it: a finite real,
    complex infinity ([zoo], the value of [x / 0] for [x <> 0]) or [nan]
    (the value of [0 / 0]). *)
Inductive num : Type :=
| Fin (r : R)
| Zoo
| Nan.

Definition is_finite (n : num) : bool :=
  match n with
  | Fin _ => true
  | _ => false
  end.

Definition nopp (a : num) : num :=
  match a with
  | Fin x => Fin (- x)
  | Zoo => Zoo
  | Nan => Nan
  end.

Definition nadd (a b : num) : num :=
  match a, b with
  | Fin x, Fin y => Fin (x + y)
  | Nan, _ | _, Nan => Nan
  | Zoo, Zoo => Nan
  | Zoo, Fin _ | Fin _, Zoo => Zoo
  end.

Definition nsub (a b : num) : num := nadd a (nopp b).

Definition nmul (a b : num) : num :=
  match a, b with
  | Fin x, Fin y => Fin (x * y)
  | Nan, _ | _, Nan => Nan
  | Zoo, Zoo => Zoo
  | Zoo, Fin y => if Req_dec_T y 0 then Nan else Zoo
  | Fin x, Zoo => if Req_dec_T x 0 then Nan else Zoo
  end.

(** [a / b] is [a * b ** -1]; [0 ** -1] is [zoo] and [zoo ** -1] is [0]. *)
Definition ninv (b : num) : num :=
  match b with
  | Fin y => if Req_dec_T y 0 then Zoo else Fin (/ y)
  | Zoo => Fin 0
  | Nan => Nan
  end.

Definition ndiv (a b : num) : num := nmul a (ninv b).

(** ** Vectors and matrices *)

(** Modelled from the spec: the [dynamics] module ([Vector], [RefFrame],
    [make_rotation]) is imported by [components.py] but is not part of the
    sources at hand.  A [Vector] wraps a 3x1 matrix [v]; its operations are
    subtraction, Euclidean norm, unit vector and cross product. *)
Record Vector : Type := mkVector { vx : R; vy : R; vz : R }.

Record Matrix : Type := mkMatrix {
  m11 : R; m12 : R; m13 : R;
  m21 : R; m22 : R; m23 : R;
  m31 : R; m32 : R; m33 : R
}.

(** A vector whose entries may be non-finite: what [unit] returns. *)
Record NVector : Type := mkNVector { nx : num; ny : num; nz : num }.

Definition vzero : Vector := mkVector 0 0 0.

Definition vadd (a b : Vector) : Vector :=
  mkVector (vx a + vx b) (vy a + vy b) (vz a + vz b).

Definition vsub (a b : Vector) : Vector :=
  mkVector (vx a - vx b) (vy a - vy b) (vz a - vz b).

Definition sqnorm (a : Vector) : R :=
  vx a ^ 2 + vy a ^ 2 + vz a ^ 2.

Definition norm (a : Vector) : R := sqrt (sqnorm a).

(** [v / norm v].  For the zero vector every entry is written as [0 / 0];
    what [unit] returns there is not fixed by the spec, and no property
    below rests on that case. *)
Definition vunit (a : Vector) : NVector :=
  mkNVector (ndiv (Fin (vx a)) (Fin (norm a)))
            (ndiv (Fin (vy a)) (Fin (norm a)))
            (ndiv (Fin (vz a)) (Fin (norm a))).

Definition cross (a : Vector) (b : NVector) : NVector :=
  mkNVector
    (nsub (nmul (Fin (vy a)) (nz b)) (nmul (Fin (vz a)) (ny b)))
    (nsub (nmul (Fin (vz a)) (nx b)) (nmul (Fin (vx a)) (nz b)))
    (nsub (nmul (Fin (vx a)) (ny b)) (nmul (Fin (vy a)) (nx b))).

Definition mident : Matrix := mkMatrix 1 0 0 0 1 0 0 0 1.

Definition mvmul (m : Matrix) (v : Vector) : Vector :=
  mkVector (m11 m * vx v + m12 m * vy v + m13 m * vz v)
           (m21 m * vx v + m22 m * vy v + m23 m * vz v)
           (m31 m * vx v + m32 m * vy v + m33 m * vz v).

Definition mmul (a b : Matrix) : Matrix :=
  mkMatrix
    (m11 a * m11 b + m12 a * m21 b + m13 a * m31 b)
    (m11 a * m12 b + m12 a * m22 b + m13 a * m32 b)
    (m11 a * m13 b + m12 a * m23 b + m13 a * m33 b)
    (m21 a * m11 b + m22 a * m21 b + m23 a * m31 b)
    (m21 a * m12 b + m22 a * m22 b + m23 a * m32 b)
    (m21 a * m13 b + m22 a * m23 b + m23 a * m33 b)
    (m31 a * m11 b + m32 a * m21 b + m33 a * m31 b)
    (m31 a * m12 b + m32 a * m22 b + m33 a * m32 b)
    (m31 a * m13 b + m32 a * m23 b + m33 a * m33 b).

Definition det (m : Matrix) : R :=
  m11 m * (m22 m * m33 m - m23 m * m32 m)
  - m12 m * (m21 m * m33 m - m23 m * m31 m)
  + m13 m * (m21 m * m32 m - m22 m * m31 m).

(** The adjugate divided by the determinant. *)
Definition minv_of (m : Matrix) : Matrix :=
  let d := det m in
  mkMatrix
    ((m22 m * m33 m - m23 m * m32 m) / d)
    ((m13 m * m32 m - m12 m * m33 m) / d)
    ((m12 m * m23 m - m13 m * m22 m) / d)
    ((m23 m * m31 m - m21 m * m33 m) / d)
    ((m11 m * m33 m - m13 m * m31 m) / d)
    ((m13 m * m21 m - m11 m * m23 m) / d)
    ((m21 m * m32 m - m22 m * m31 m) / d)
    ((m12 m * m31 m - m11 m * m32 m) / d)
    ((m11 m * m22 m - m12 m * m21 m) / d).

Inductive Axis : Type := AxisX | AxisY | AxisZ.

(** Modelled from the spec: [make_rotation(a, axis, deg)] is the rotation
    matrix about a coordinate axis; [deg] says that [a] is in degrees. *)
Definition radians (a : R) (deg : bool) : R :=
  if deg then a * PI / 180 else a.

Definition make_rotation (a : R) (axis : Axis) (deg : bool) : Matrix :=
  let t := radians a deg in
  match axis with
  | AxisX => mkMatrix 1 0 0
                      0 (cos t) (- sin t)
                      0 (sin t) (cos t)
  | AxisY => mkMatrix (cos t) 0 (sin t)
                      0 1 0
                      (- sin t) 0 (cos t)
  | AxisZ => mkMatrix (cos t) (- sin t) 0
                      (sin t) (cos t) 0
                      0 0 1
  end.

(** ** Exceptions, the frame store and the monad of methods *)

Inductive exn : Type :=
| ValueError (msg : string)
| NonInvertibleMatrixError
| SolverError.

Inductive res (A : Type) : Type :=
| Ok (a : A)
| Raise (e : exn).
Arguments Ok {A} a.
Arguments Raise {A} e.

(** A reference to a [RefFrame] object. *)
Definition ref : Type := nat.

(** Modelled from the spec: a [RefFrame] has a fixed origin and a mutable
    rotation, both relative to its parent frame ([None] for the global
    frame). *)
Record RefFrame : Type := mkRefFrame {
  origin : Vector;
  rotation : Matrix;
  parent : option ref
}.

Definition heap : Type := ref -> RefFrame.

Definition upd (h : heap) (r : ref) (f : RefFrame) : heap :=
  fun r' => if Nat.eqb r' r then f else h r'.

(** A method runs on a store and leaves a store behind, also when it
    raises: what it wrote before the exception stays written. *)
Definition M (A : Type) : Type := heap -> res A * heap.

Definition ret {A : Type} (a : A) : M A := fun h => (Ok a, h).

Definition bind {A B : Type} (c : M A) (k : A -> M B) : M B :=
  fun h =>
    match c h with
    | (Ok a, h') => k a h'
    | (Raise e, h') => (Raise e, h')
    end.

Definition raise {A : Type} (e : exn) : M A := fun h => (Raise e, h).

Notation "x <- c ;; k" := (bind c (fun x => k))
  (at level 61, c at next level, right associativity).
Notation "c ;;; k" := (bind c (fun _ => k))
  (at level 61, right associativity).

(** [frame.get_rotation()], [frame.set_rotation(m)] and
    [frame.get_parent()]. *)
Definition get_rotation (f : ref) : M Matrix :=
  fun h => (Ok (rotation (h f)), h).

Definition with_rotation (h : heap) (f : ref) (m : Matrix) : heap :=
  upd h f (mkRefFrame (origin (h f)) m (parent (h f))).

Definition set_rotation (f : ref) (m : Matrix) : M unit :=
  fun h => (Ok tt, with_rotation h f m).

Definition get_parent (f : ref) : M (option ref) :=
  fun h => (Ok (parent (h f)), h).

(** Modelled from the spec: [frame.get_coords(v, frame.get_parent())], the
    only shape in which the source calls it, is the one-step transform
    from the local frame to its parent. *)
Definition get_coords (f : ref) (v : Vector) (target : option ref) : M Vector :=
  fun h => (Ok (vadd (origin (h f)) (mvmul (rotation (h f)) v)), h).

(** [m ** -1]: the inverse of an invertible matrix; sympy raises when the
    determinant vanishes.  (A singular diagonal matrix, which sympy inverts
    entry by entry, is outside the model: the properties below that go
    through the inverse are about invertible orientations.) *)
Definition matrix_inverse (m : Matrix) : M Matrix :=
  if Req_dec_T (det m) 0 then raise NonInvertibleMatrixError
  else ret (minv_of m).

(** ** ControlArm *)

(** [str.lower()] on the ASCII letters, which is all that the side marker
    can need: no other character lowers to ['r'] or ['l']. *)
Definition lower_ascii (c : ascii) : ascii :=
  let n := nat_of_ascii c in
  if (65 <=? n)%nat && (n <=? 90)%nat then ascii_of_nat (n + 32) else c.

Fixpoint lower (s : string) : string :=
  match s with
  | EmptyString => EmptyString
  | String c s' => String (lower_ascii c) (lower s')
  end.

Record ControlArm : Type := mkControlArm {
  f_l : Vector;
  r_l : Vector;
  u_l : Vector;
  ca_frame : ref;
  p_l : option Vector;
  ca_side : string
}.

(** [ControlArm.__init__(rear, upright, frame, prod=None, side='')] *)
Definition ControlArm_init (rear upright : Vector) (frame : ref)
    (prod : option Vector) (side : string) : res ControlArm :=
  let si := lower side in
  if negb (String.eqb si "r") && negb (String.eqb si "l") then
    Raise (ValueError "invalid side")
  else
    Ok (mkControlArm vzero rear upright frame prod side).

Definition ControlArm_get_f_p (ca : ControlArm) : M Vector :=
  p <- get_parent (ca_frame ca) ;; get_coords (ca_frame ca) (f_l ca) p.

Definition ControlArm_get_r_p (ca : ControlArm) : M Vector :=
  p <- get_parent (ca_frame ca) ;; get_coords (ca_frame ca) (r_l ca) p.

Definition ControlArm_get_u_p (ca : ControlArm) : M Vector :=
  p <- get_parent (ca_frame ca) ;; get_coords (ca_frame ca) (u_l ca) p.

Definition ControlArm_get_p_p (ca : ControlArm) : M Vector :=
  match p_l ca with
  | None => raise (ValueError "no push/pullrod hardpoint")
  | Some pl =>
      p <- get_parent (ca_frame ca) ;; get_coords (ca_frame ca) pl p
  end.

(** [ControlArm.rotate(a, deg=True)] *)
Definition ControlArm_rotate (ca : ControlArm) (a : R) (deg : bool) : M unit :=
  let a := if String.eqb (ca_side ca) "r" then - a else a in
  let rotation_l_new := make_rotation a AxisX deg in
  rotation_g_l <- get_rotation (ca_frame ca) ;;
  set_rotation (ca_frame ca) (mmul rotation_g_l rotation_l_new).

(** ** Rocker *)

Record Rocker : Type := mkRocker {
  pi_l : Vector;
  a_l : Vector;
  pr_l : Vector;
  s_l : Vector;
  ro_frame : ref
}.

(** [Rocker.__init__(arb, prod, shock, frame)] *)
Definition Rocker_init (arb prod shock : Vector) (frame : ref) : Rocker :=
  mkRocker vzero arb prod shock frame.

Definition Rocker_get_pi_p (r : Rocker) : M Vector :=
  p <- get_parent (ro_frame r) ;; get_coords (ro_frame r) (pi_l r) p.

Definition Rocker_get_a_p (r : Rocker) : M Vector :=
  p <- get_parent (ro_frame r) ;; get_coords (ro_frame r) (a_l r) p.

Definition Rocker_get_pr_p (r : Rocker) : M Vector :=
  p <- get_parent (ro_frame r) ;; get_coords (ro_frame r) (pr_l r) p.

Definition Rocker_get_s_p (r : Rocker) : M Vector :=
  p <- get_parent (ro_frame r) ;; get_coords (ro_frame r) (s_l r) p.

(** [Rocker.rotate(a, deg=True)] *)
Definition Rocker_rotate (r : Rocker) (a : R) (deg : bool) : M unit :=
  let rotation_l_new := make_rotation a AxisZ deg in
  rotation_g_l <- get_rotation (ro_frame r) ;;
  set_rotation (ro_frame r) (mmul rotation_g_l rotation_l_new).

(** ** Shock *)

(** The stiffness and the reference length are the caller's numbers; the
    reference force is a quotient computed by [LongAccel] and may be
    non-finite. *)
Record Shock : Type := mkShock {
  sh_k : R;
  sh_len : R;
  sh_force : num
}.

(** [Shock.get_force(new_len)] *)
Definition Shock_get_force (s : Shock) (new_len : R) : num :=
  nadd (sh_force s) (Fin (sh_k s * (sh_len s - new_len))).

(** ** LongAccel *)

Record LongAccel : Type := mkLongAccel {
  la_ca : ControlArm;
  la_rocker : Rocker;
  la_shock : Shock;
  la_prod : R;
  la_side : string
}.

(** [LongAccel.__make_shock(constant, f_prod)] *)
Definition LongAccel_make_shock (ca : ControlArm) (r : Rocker)
    (constant f_prod : R) : M Shock :=
  s_p <- Rocker_get_s_p r ;;
  let length := norm s_p in
  r_p_l <- get_rotation (ro_frame r) ;;
  r_l_p <- matrix_inverse r_p_l ;;
  pr_p <- Rocker_get_pr_p r ;;
  p_p <- ControlArm_get_p_p ca ;;
  let l_prod := vsub pr_p p_p in
  let l_prod := mvmul r_l_p l_prod in
  let n_prod := vunit l_prod in
  s_p <- Rocker_get_s_p r ;;
  let l_shock := mvmul r_l_p s_p in
  let n_shock := vunit l_shock in
  let m_prod := cross (pr_l r) n_prod in
  let m_shock := cross (s_l r) n_shock in
  let f_shock := ndiv (nmul (Fin (- f_prod)) (nz m_prod)) (nz m_shock) in
  ret (mkShock constant length f_shock).

(** [LongAccel.__init__(ca, r, k, f_prod)] *)
Definition LongAccel_init (ca : ControlArm) (r : Rocker) (k f_prod : R)
    : M LongAccel :=
  shock <- LongAccel_make_shock ca r k f_prod ;;
  pr_p <- Rocker_get_pr_p r ;;
  p_p <- ControlArm_get_p_p ca ;;
  ret (mkLongAccel ca r shock (norm (vsub pr_p p_p)) (ca_side ca)).

(** [LongAccel.get_forces()] *)
Definition LongAccel_get_forces (la : LongAccel) : M (num * num) :=
  pr_p <- Rocker_get_pr_p (la_rocker la) ;;
  s_p <- Rocker_get_s_p (la_rocker la) ;;
  r_p_l <- get_rotation (ro_frame (la_rocker la)) ;;
  r_l_p <- matrix_inverse r_p_l ;;
  p_p <- ControlArm_get_p_p (la_ca la) ;;
  let l_prod := mvmul r_l_p (vsub pr_p p_p) in
  let n_prod := vunit l_prod in
  let l_shock := mvmul r_l_p s_p in
  let n_shock := vunit l_shock in
  let m_prod := cross (pr_l (la_rocker la)) n_prod in
  let m_shock := cross (s_l (la_rocker la)) n_shock in
  let length := norm s_p in
  let f_shock := Shock_get_force (la_shock la) length in
  let f_prod := ndiv (nmul (nopp f_shock) (nz m_shock)) (nz m_prod) in
  ret (f_shock, f_prod).

(** The residual [eqn] that [rotate_ca] hands to the root finder, as a
    function of the unknown rocker angle [x]. *)
Definition rod_residual (r_p_l : Matrix) (pi_p pr_loc ca_p : Vector)
    (prod : R) (x : R) : R :=
  let r_l_n := make_rotation x AxisZ false in
  let r_p_n := mmul r_p_l r_l_n in
  let pr_p := vadd pi_p (mvmul r_p_n pr_loc) in
  let pr_len := vsub pr_p ca_p in
  let length := prod ^ 2 in
  vx pr_len ^ 2 + vy pr_len ^ 2 + vz pr_len ^ 2 - length.

Definition rod_constraint (la : LongAccel) : M (R -> R) :=
  r_p_l <- get_rotation (ro_frame (la_rocker la)) ;;
  pi_p <- Rocker_get_pi_p (la_rocker la) ;;
  ca_p <- ControlArm_get_p_p (la_ca la) ;;
  ret (rod_residual r_p_l pi_p (pr_l (la_rocker la)) ca_p (la_prod la)).

Section RootFinder.

(** [float(nsolve(eqn, x, x0))]: sympy's root finder, a collaborator
    outside the repository.  [None] stands for any exception it or the
    conversion to [float] raises. *)
Variable nsolve : (R -> R) -> R -> option R.

Definition nsolve_float (eqn : R -> R) (x0 : R) : M R :=
  match nsolve eqn x0 with
  | Some x => ret x
  | None => raise SolverError
  end.

(** [LongAccel.rotate_ca(a, deg=True)] *)
Definition LongAccel_rotate_ca (la : LongAccel) (a : R) (deg : bool) : M R :=
  ControlArm_rotate (la_ca la) a deg ;;;
  eqn <- rod_constraint la ;;
  sol <- nsolve_float eqn 0 ;;
  Rocker_rotate (la_rocker la) sol false ;;;
  ret sol.

End RootFinder.

(** The distance between the two rod hardpoints in the parent frame. *)
Definition rod_distance (la : LongAccel) : M R :=
  pr_p <- Rocker_get_pr_p (la_rocker la) ;;
  p_p <- ControlArm_get_p_p (la_ca la) ;;
  ret (norm (vsub pr_p p_p)).

(** ** Quantities the statements speak about *)

(** The value a method returns, without the store. *)
Definition eval {A : Type} (c : M A) (h : heap) : res A := fst (c h).

(** The store a method leaves behind. *)
Definition heap_after {A : Type} (c : M A) (h : heap) : heap := snd (c h).

(** A hardpoint's position in the parent frame, read off the store. *)
Definition in_parent (h : heap) (f : ref) (v : Vector) : Vector :=
  vadd (origin (h f)) (mvmul (rotation (h f)) v).

(** A parent-frame vector expressed in the rocker's local frame, as a unit
    direction. *)
Definition local_direction (h : heap) (r : Rocker) (v : Vector) : NVector :=
  vunit (mvmul (minv_of (rotation (h (ro_frame r)))) v).

(** The moment-arm scalars about the rocker pivot: the local z-component of
    hardpoint position crossed with unit force direction. *)
Definition rod_moment_arm (h : heap) (r : Rocker) (ca_rod : Vector) (ca_f : ref)
    : num :=
  nz (cross (pr_l r)
        (local_direction h r
           (vsub (in_parent h (ro_frame r) (pr_l r)) (in_parent h ca_f ca_rod)))).

Definition shock_moment_arm (h : heap) (r : Rocker) : num :=
  nz (cross (s_l r) (local_direction h r (in_parent h (ro_frame r) (s_l r)))).

(** The reference force that the moment balance about the rocker pivot
    gives for a rod force [f_prod]. *)
Definition balance_shock_force (h : heap) (ca_rod : Vector) (ca_f : ref)
    (r : Rocker) (f_prod : R) : num :=
  ndiv (nmul (Fin (- f_prod)) (rod_moment_arm h r ca_rod ca_f))
       (shock_moment_arm h r).

(** The distance of the rocker's shock hardpoint from the rocker pivot. *)
Definition shock_pivot_distance (h : heap) (r : Rocker) : R :=
  norm (vsub (in_parent h (ro_frame r) (s_l r))
             (in_parent h (ro_frame r) (pi_l r))).

(** An orientation that is a rotation (or a reflection): its transpose is
    its inverse. *)
Definition mtranspose (m : Matrix) : Matrix :=
  mkMatrix (m11 m) (m21 m) (m31 m)
           (m12 m) (m22 m) (m32 m)
           (m13 m) (m23 m) (m33 m).

Definition orthogonal (m : Matrix) : Prop := mmul (mtranspose m) m = mident.

(** The two links of an aggregate hold their frames by reference.  Either
    the control arm and the rocker are on separate frame objects, or the
    one frame they share holds an orthogonal orientation, both when the
    aggregate is built (store [h0]) and when it is used (store [h]). *)
Definition frames_sound (h0 h : heap) (ca : ControlArm) (r : Rocker) : Prop :=
  ca_frame ca <> ro_frame r
  \/ (orthogonal (rotation (h0 (ro_frame r)))
      /\ orthogonal (rotation (h (ro_frame r)))).

(** ** A worked scenario

    Frame 0 carries the control arm and sits at the parent origin; frame 1
    carries the rocker, whose pivot is 3 m along the parent's y-axis.
    Neither frame is rotated. *)
Definition frame_at (o : Vector) : RefFrame := mkRefFrame o mident None.

Definition bench_heap : heap :=
  fun r => match r with
           | 1%nat => frame_at (mkVector 0 3 0)
           | _ => frame_at vzero
           end.

Definition bench_rod : Vector := mkVector 1 4 0.

Definition bench_ca : ControlArm :=
  mkControlArm vzero (mkVector 0 5 0) (mkVector 1 5 0) 0%nat
    (Some bench_rod) "l".

Definition bench_rocker : Rocker :=
  Rocker_init (mkVector 1 1 0) (mkVector 0 1 0) (mkVector 4 0 0) 1%nat.

(** The aggregate that [LongAccel_init bench_ca bench_rocker k f] builds. *)
Definition bench_la (k f : R) : LongAccel :=
  mkLongAccel bench_ca bench_rocker
    (mkShock k 5 (Fin (- f * 1 / (12 / 5)))) 1 "l".

(** The same links with the rocker pivot at the parent origin: the shock
    direction then passes through the pivot axis. *)
Definition flat_heap : heap := fun _ => frame_at vzero.

Definition flat_rocker : Rocker :=
  Rocker_init (mkVector 1 1 0) (mkVector 0 1 0) (mkVector 1 0 0) 1%nat.

Definition flat_ca : ControlArm :=
  mkControlArm vzero (mkVector 0 5 0) (mkVector 1 5 0) 0%nat
    (Some (mkVector 1 1 0)) "l".


(** A root finder of that kind: it tries one candidate and answers with it
    only if the residual vanishes there. *)
Definition checked_solver (candidate : R) : (R -> R) -> R -> option R :=
  fun f _ => if Req_dec_T (f candidate) 0 then Some candidate else None.

(** ** A second scenario: a half turn of the control arm

    The control arm's frame 0 sits at the parent origin, the rocker's
    frame 1 at (3, -4, 0); the rod runs from (0, -1, 0) on the control arm
    to (1, 0, 0) on the rocker and is 5 m long. *)
Definition swing_heap : heap :=
  fun r => match r with
           | 1%nat => frame_at (mkVector 3 (-4) 0)
           | _ => frame_at vzero
           end.

Definition swing_rod : Vector := mkVector 0 (-1) 0.

Definition swing_ca : ControlArm :=
  mkControlArm vzero (mkVector (-2) 0 0) (mkVector (-1) 1 0) 0%nat
    (Some swing_rod) "l".

Definition swing_rocker : Rocker :=
  Rocker_init (mkVector 0 1 0) (mkVector 1 0 0) (mkVector 1 4 0) 1%nat.

(** The aggregate that [LongAccel_init swing_ca swing_rocker k f] builds. *)
Definition swing_la (k f : R) : LongAccel :=
  mkLongAccel swing_ca swing_rocker
    (mkShock k
       (norm (in_parent swing_heap (ro_frame swing_rocker) (s_l swing_rocker)))
       (balance_shock_force swing_heap swing_rod (ca_frame swing_ca)
          swing_rocker f))
    5 "l".

(** ** ControlArm.force_u *)

(** Scalar multiple, negation and sum of sympy column matrices. *)
Definition nvscale (c : R) (v : NVector) : NVector :=
  mkNVector (nmul (Fin c) (nx v)) (nmul (Fin c) (ny v)) (nmul (Fin c) (nz v)).

Definition nvopp (v : NVector) : NVector :=
  mkNVector (nopp (nx v)) (nopp (ny v)) (nopp (nz v)).

Definition nvadd (a b : NVector) : NVector :=
  mkNVector (nadd (nx a) (nx b)) (nadd (ny a) (ny b)) (nadd (nz a) (nz b)).

(** A line written by [print('F_x: %s N' % value)]: the label of the
    component and the number that was formatted. *)
Record printed : Type := mkPrinted { pr_label : string; pr_value : num }.

(** [ControlArm.force_u(force_f, force_r)]: the returned force and the
    lines it prints, in order. *)
Definition ControlArm_force_u (ca : ControlArm) (force_f force_r : R)
    : NVector * list printed :=
  let f_front := nvscale force_f (nvopp (vunit (u_l ca))) in
  let p_rear := vsub (r_l ca) (u_l ca) in
  let f_rear := nvscale force_r (vunit p_rear) in
  let f_upright := nvadd f_front f_rear in
  (f_upright,
   [mkPrinted "F_x" (nx f_upright);
    mkPrinted "F_y" (ny f_upright);
    mkPrinted "F_z" (nz f_upright)]).

(** An [NVector] all of whose entries are finite reals. *)
Definition nvfin (v : Vector) : NVector :=
  mkNVector (Fin (vx v)) (Fin (vy v)) (Fin (vz v)).

Definition vscale (c : R) (v : Vector) : Vector :=
  mkVector (c * vx v) (c * vy v) (c * vz v).

(** The distance between two hardpoints, each read through its getter. *)
Definition distance_p (c1 c2 : M Vector) : M R :=
  a <- c1 ;; b <- c2 ;; ret (norm (vsub a b)).

Ltac run_methods :=
  unfold ControlArm_rotate, Rocker_rotate,
    ControlArm_get_f_p, ControlArm_get_r_p, ControlArm_get_u_p,
    ControlArm_get_p_p,
    Rocker_get_pi_p, Rocker_get_a_p, Rocker_get_pr_p, Rocker_get_s_p,
    eval, bind, ret, raise, get_parent, get_coords, get_rotation,
    set_rotation, with_rotation;
  cbn [rotation origin parent fst snd].

(** * Properties *)

(** ** The store *)

Lemma upd_same (h : heap) (r : ref) (f : RefFrame) : upd h r f r = f.
Proof. unfold upd. now rewrite Nat.eqb_refl. Qed.

Lemma upd_other (h : heap) (r r' : ref) (f : RefFrame) :
  r' <> r -> upd h r f r' = h r'.
Proof.
  intros Hne. unfold upd.
  destruct (Nat.eqb_spec r' r) as [E | _]; [contradiction | reflexivity].
Qed.

(** ** Rotation matrices *)

Lemma radians_opp (a : R) (deg : bool) : radians (- a) deg = - radians a deg.
Proof. destruct deg; unfold radians; [field | reflexivity]. Qed.

Lemma matrix_eq (a b : Matrix) :
  m11 a = m11 b -> m12 a = m12 b -> m13 a = m13 b ->
  m21 a = m21 b -> m22 a = m22 b -> m23 a = m23 b ->
  m31 a = m31 b -> m32 a = m32 b -> m33 a = m33 b -> a = b.
Proof. destruct a, b; cbn; intros; subst; reflexivity. Qed.

Lemma vector_eq (a b : Vector) :
  vx a = vx b -> vy a = vy b -> vz a = vz b -> a = b.
Proof. destruct a, b; cbn; intros; subst; reflexivity. Qed.

(** Turning by [a] and then by [- a] about the same axis is the identity,
    whatever orientation the frame started from. *)
Lemma mmul_rotation_back (m : Matrix) (a : R) (axis : Axis) (deg : bool) :
  mmul (mmul m (make_rotation a axis deg)) (make_rotation (- a) axis deg) = m.
Proof.
  unfold make_rotation. rewrite radians_opp, cos_neg, sin_neg.
  set (t := radians a deg).
  assert (Hcs : cos t * cos t = 1 - sin t * sin t)
    by (pose proof (sin2_cos2 t) as H; unfold Rsqr in H; lra).
  set (s := sin t) in *. set (c := cos t) in *.
  destruct m as [a11 a12 a13 a21 a22 a23 a31 a32 a33].
  destruct axis; apply matrix_eq; cbn; ring [Hcs].
Qed.

Lemma sin_90_degrees : sin (radians 90 true) = 1.
Proof.
  unfold radians. replace (90 * PI / 180) with (PI / 2) by field.
  apply sin_PI2.
Qed.

(** ** Shock *)

Lemma nadd_Fin_0 (n : num) (x : R) : x = 0 -> nadd n (Fin x) = n.
Proof.
  intros ->. destruct n as [r | |]; cbn; try reflexivity.
  f_equal. ring.
Qed.

(** C7.  The spring is linear about its reference state: at the reference
    length it returns the reference force itself, a displacement [d] below
    the reference length adds [k * d], and in general
    [force(len) = F0 + k * (L0 - len)]. *)
Theorem Shock_get_force_linear (k L0 : R) (F0 : num) :
  Shock_get_force (mkShock k L0 F0) L0 = F0
  /\ (forall d, Shock_get_force (mkShock k L0 F0) (L0 - d)
                = nadd F0 (Fin (k * d)))
  /\ (forall len, Shock_get_force (mkShock k L0 F0) len
                  = nadd F0 (nmul (Fin k) (nsub (Fin L0) (Fin len)))).
Proof.
  unfold Shock_get_force; cbn [sh_k sh_len sh_force].
  split; [| split].
  - apply nadd_Fin_0. ring.
  - intros d. do 2 f_equal. ring.
  - intros len. reflexivity.
Qed.

(** ** ControlArm and Rocker *)

(** C8.  On a control arm as its constructor builds it, [get_p_p] raises
    exactly when no rod hardpoint was supplied; when one was supplied it
    returns that hardpoint's position in the parent frame.  Either way the
    store is left alone. *)
Theorem ControlArm_get_p_p_raises_iff
    (rear upright : Vector) (frame : ref) (prod : option Vector)
    (side : string) (ca : ControlArm) (h : heap) :
  ControlArm_init rear upright frame prod side = Ok ca ->
  ((exists e, ControlArm_get_p_p ca h = (Raise e, h)) <-> prod = None)
  /\ (forall p, prod = Some p ->
        ControlArm_get_p_p ca h = (Ok (in_parent h frame p), h)).
Proof.
  unfold ControlArm_init.
  destruct (negb (String.eqb (lower side) "r") && negb (String.eqb (lower side) "l"));
    [discriminate |].
  intros [= <-]. unfold ControlArm_get_p_p; cbn [p_l ca_frame].
  split.
  - split.
    + intros [e He]. destruct prod as [p |]; [discriminate He | reflexivity].
    + intros ->. eexists. reflexivity.
  - intros p ->. reflexivity.
Qed.

(** C4.  The constructor accepts ["R"] as a spelling of the right side, but
    [rotate] compares the stored marker with ["r"] only: a control arm built
    with ["R"] is turned by [a] itself, where one built with ["r"] is turned
    by [- a]; at 90 degrees the two rotations differ. *)
Theorem ControlArm_rotate_upper_R_not_negated
    (rear upright : Vector) (frame : ref) (prod : option Vector)
    (a : R) (deg : bool) (h : heap) :
  ControlArm_init rear upright frame prod "R"
    = Ok (mkControlArm vzero rear upright frame prod "R")
  /\ ControlArm_rotate (mkControlArm vzero rear upright frame prod "R") a deg h
     = (Ok tt, with_rotation h frame
                 (mmul (rotation (h frame)) (make_rotation a AxisX deg)))
  /\ ControlArm_rotate (mkControlArm vzero rear upright frame prod "r") a deg h
     = (Ok tt, with_rotation h frame
                 (mmul (rotation (h frame)) (make_rotation (- a) AxisX deg)))
  /\ make_rotation 90 AxisX true <> make_rotation (- 90) AxisX true.
Proof.
  repeat split.
  intros Heq. apply (f_equal m32) in Heq.
  unfold make_rotation in Heq; cbn [m32] in Heq.
  replace (radians (-90) true) with (- radians 90 true) in Heq
    by (unfold radians; lra).
  rewrite sin_neg, sin_90_degrees in Heq. lra.
Qed.

(** C9.  Rotating a link by [a] and then by [- a] puts every hardpoint back
    where it was in the parent frame: the four hardpoints of a control arm
    (of either side) and the four hardpoints of a rocker. *)
Theorem rotate_round_trip (ca : ControlArm) (r : Rocker) (a : R) (deg : bool)
    (h : heap) :
  (exists h',
      (ControlArm_rotate ca a deg ;;; ControlArm_rotate ca (- a) deg) h
        = (Ok tt, h')
      /\ eval (ControlArm_get_f_p ca) h' = eval (ControlArm_get_f_p ca) h
      /\ eval (ControlArm_get_r_p ca) h' = eval (ControlArm_get_r_p ca) h
      /\ eval (ControlArm_get_u_p ca) h' = eval (ControlArm_get_u_p ca) h
      /\ eval (ControlArm_get_p_p ca) h' = eval (ControlArm_get_p_p ca) h)
  /\ (exists h',
      (Rocker_rotate r a deg ;;; Rocker_rotate r (- a) deg) h = (Ok tt, h')
      /\ eval (Rocker_get_pi_p r) h' = eval (Rocker_get_pi_p r) h
      /\ eval (Rocker_get_a_p r) h' = eval (Rocker_get_a_p r) h
      /\ eval (Rocker_get_pr_p r) h' = eval (Rocker_get_pr_p r) h
      /\ eval (Rocker_get_s_p r) h' = eval (Rocker_get_s_p r) h).
Proof.
  split.
  - eexists. split; [reflexivity |].
    run_methods. rewrite !upd_same; cbn [rotation origin parent].
    assert (Hback :
      mmul (mmul (rotation (h (ca_frame ca)))
              (make_rotation (if String.eqb (ca_side ca) "r" then - a else a)
                 AxisX deg))
           (make_rotation (if String.eqb (ca_side ca) "r" then - - a else - a)
              AxisX deg)
      = rotation (h (ca_frame ca))).
    { destruct (String.eqb (ca_side ca) "r"); apply mmul_rotation_back. }
    rewrite Hback.
    destruct (p_l ca); cbn [fst]; rewrite ?upd_same; repeat split; reflexivity.
  - eexists. split; [reflexivity |].
    run_methods. rewrite !upd_same; cbn [rotation origin parent].
    rewrite mmul_rotation_back. repeat split; reflexivity.
Qed.

(** ** LongAccel: what the three methods compute *)

Lemma LongAccel_make_shock_spec (ca : ControlArm) (r : Rocker) (k f : R)
    (h : heap) :
  LongAccel_make_shock ca r k f h =
    (if Req_dec_T (det (rotation (h (ro_frame r)))) 0
     then Raise NonInvertibleMatrixError
     else match p_l ca with
          | None => Raise (ValueError "no push/pullrod hardpoint")
          | Some p =>
              Ok (mkShock k (norm (in_parent h (ro_frame r) (s_l r)))
                    (balance_shock_force h p (ca_frame ca) r f))
          end, h).
Proof.
  unfold LongAccel_make_shock, matrix_inverse. run_methods.
  destruct (Req_dec_T (det (rotation (h (ro_frame r)))) 0); [reflexivity |].
  run_methods. destruct (p_l ca); reflexivity.
Qed.

Lemma LongAccel_init_spec (ca : ControlArm) (r : Rocker) (k f : R) (h : heap) :
  LongAccel_init ca r k f h =
    (if Req_dec_T (det (rotation (h (ro_frame r)))) 0
     then Raise NonInvertibleMatrixError
     else match p_l ca with
          | None => Raise (ValueError "no push/pullrod hardpoint")
          | Some p =>
              Ok (mkLongAccel ca r
                    (mkShock k (norm (in_parent h (ro_frame r) (s_l r)))
                       (balance_shock_force h p (ca_frame ca) r f))
                    (norm (vsub (in_parent h (ro_frame r) (pr_l r))
                                (in_parent h (ca_frame ca) p)))
                    (ca_side ca))
          end, h).
Proof.
  unfold LongAccel_init, bind at 1. rewrite LongAccel_make_shock_spec.
  destruct (Req_dec_T (det (rotation (h (ro_frame r)))) 0); [reflexivity |].
  run_methods. destruct (p_l ca); reflexivity.
Qed.

Lemma LongAccel_get_forces_spec (la : LongAccel) (h : heap) :
  LongAccel_get_forces la h =
    (let r := la_rocker la in
     if Req_dec_T (det (rotation (h (ro_frame r)))) 0
     then Raise NonInvertibleMatrixError
     else match p_l (la_ca la) with
          | None => Raise (ValueError "no push/pullrod hardpoint")
          | Some p =>
              let f_shock :=
                Shock_get_force (la_shock la)
                  (norm (in_parent h (ro_frame r) (s_l r))) in
              Ok (f_shock,
                  ndiv (nmul (nopp f_shock) (shock_moment_arm h r))
                       (rod_moment_arm h r p (ca_frame (la_ca la))))
          end, h).
Proof.
  unfold LongAccel_get_forces, matrix_inverse. run_methods.
  destruct (Req_dec_T (det (rotation (h (ro_frame (la_rocker la))))) 0);
    [reflexivity |].
  run_methods. destruct (p_l (la_ca la)); reflexivity.
Qed.

(** A successful construction: what it needed and what it stored. *)
Lemma LongAccel_init_inv (ca : ControlArm) (r : Rocker) (k f : R)
    (h h' : heap) (la : LongAccel) :
  LongAccel_init ca r k f h = (Ok la, h') ->
  exists p,
    p_l ca = Some p
    /\ det (rotation (h (ro_frame r))) <> 0
    /\ h' = h
    /\ la = mkLongAccel ca r
              (mkShock k (norm (in_parent h (ro_frame r) (s_l r)))
                 (balance_shock_force h p (ca_frame ca) r f))
              (norm (vsub (in_parent h (ro_frame r) (pr_l r))
                          (in_parent h (ca_frame ca) p)))
              (ca_side ca).
Proof.
  rewrite LongAccel_init_spec.
  destruct (Req_dec_T (det (rotation (h (ro_frame r)))) 0); [discriminate |].
  destruct (p_l ca) as [p |]; [| discriminate].
  intros [= <- <-]. exists p. repeat split; assumption.
Qed.

(** C10.  Constructing a [LongAccel] only reads the two links.  Whether it
    succeeds or raises, the store of frames (hence every orientation) is
    left as it was; when it succeeds, the aggregate holds the very control
    arm and rocker it was given, with their hardpoints. *)
Theorem LongAccel_init_frame (ca : ControlArm) (r : Rocker) (k f : R)
    (h : heap) :
  heap_after (LongAccel_init ca r k f) h = h
  /\ (forall la, eval (LongAccel_init ca r k f) h = Ok la ->
        la_ca la = ca /\ la_rocker la = r).
Proof.
  unfold heap_after, eval. rewrite LongAccel_init_spec. cbn [fst snd].
  split; [reflexivity |].
  intros la.
  destruct (Req_dec_T (det (rotation (h (ro_frame r)))) 0); [discriminate |].
  destruct (p_l ca) as [p |]; [| discriminate].
  intros [= <-]. split; reflexivity.
Qed.

Lemma ninv_Fin (y : R) : y <> 0 -> ninv (Fin y) = Fin (/ y).
Proof.
  intros Hy. unfold ninv. destruct (Req_dec_T y 0); [contradiction | reflexivity].
Qed.

Lemma ndiv_Fin (x y : R) : y <> 0 -> ndiv (Fin x) (Fin y) = Fin (x / y).
Proof. intros Hy. unfold ndiv. rewrite ninv_Fin by assumption. reflexivity. Qed.

Lemma ndiv_by_zero (a : num) : is_finite (ndiv a (Fin 0)) = false.
Proof.
  unfold ndiv, ninv. destruct (Req_dec_T 0 0) as [_ | Hne]; [| now elim Hne].
  destruct a as [x | |]; cbn; try reflexivity.
  destruct (Req_dec_T x 0); reflexivity.
Qed.

Lemma ndiv_nonzero_by_zero (x : R) : x <> 0 -> ndiv (Fin x) (Fin 0) = Zoo.
Proof.
  intros Hx. unfold ndiv, ninv.
  destruct (Req_dec_T 0 0) as [_ | Hne]; [| now elim Hne].
  cbn. destruct (Req_dec_T x 0); [contradiction | reflexivity].
Qed.

(** C3, as the code has it.  The spring is instantiated with the given
    stiffness, with reference length the norm of the shock hardpoint's
    position in the parent frame (its distance from the parent origin),
    and with reference force [- f_rod * m_rod / m_shock]; for finite
    moment arms with [m_shock <> 0] that quotient is the real number. *)
Theorem LongAccel_init_shock (ca : ControlArm) (r : Rocker) (k f : R)
    (h h' : heap) (la : LongAccel) :
  LongAccel_init ca r k f h = (Ok la, h') ->
  exists p,
    p_l ca = Some p
    /\ sh_k (la_shock la) = k
    /\ sh_len (la_shock la) = norm (in_parent h (ro_frame r) (s_l r))
    /\ sh_force (la_shock la)
       = ndiv (nmul (Fin (- f)) (rod_moment_arm h r p (ca_frame ca)))
              (shock_moment_arm h r)
    /\ (forall m_rod m_shock,
          rod_moment_arm h r p (ca_frame ca) = Fin m_rod ->
          shock_moment_arm h r = Fin m_shock ->
          m_shock <> 0 ->
          sh_force (la_shock la) = Fin (- f * m_rod / m_shock)).
Proof.
  intros Hinit. apply LongAccel_init_inv in Hinit.
  destruct Hinit as (p & Hp & _ & -> & ->). exists p.
  cbn [la_shock sh_k sh_len sh_force]. unfold balance_shock_force.
  repeat split; try assumption.
  intros m_rod m_shock -> -> Hm. cbn [nmul]. now rewrite ndiv_Fin.
Qed.

(** C2.  With finite non-zero rod and shock moment arms, [get_forces]
    called right after construction returns the rod force [f_prod] that the
    constructor was given. *)
Theorem get_forces_after_init (ca : ControlArm) (r : Rocker) (k f_prod : R)
    (h h' : heap) (la : LongAccel) (p : Vector) (m_rod m_shock : R) :
  LongAccel_init ca r k f_prod h = (Ok la, h') ->
  p_l ca = Some p ->
  rod_moment_arm h r p (ca_frame ca) = Fin m_rod -> m_rod <> 0 ->
  shock_moment_arm h r = Fin m_shock -> m_shock <> 0 ->
  exists f_shock,
    LongAccel_get_forces la h' = (Ok (f_shock, Fin f_prod), h').
Proof.
  intros Hinit Hp Hrod Hr Hshock Hs. apply LongAccel_init_inv in Hinit.
  destruct Hinit as (p' & Hp' & Hdet & -> & ->).
  rewrite Hp in Hp'. injection Hp' as <-.
  rewrite LongAccel_get_forces_spec.
  cbn [la_rocker la_ca la_shock].
  destruct (Req_dec_T (det (rotation (h (ro_frame r)))) 0); [contradiction |].
  rewrite Hp. cbv zeta. eexists. do 3 f_equal.
  unfold balance_shock_force, Shock_get_force; cbn [sh_force sh_k sh_len].
  rewrite Hrod, Hshock. cbn [nmul]. rewrite ndiv_Fin by assumption.
  cbn [nadd nopp nmul]. rewrite ndiv_Fin by assumption.
  f_equal. field. split; assumption.
Qed.

(** ** The kinematic solve *)

Lemma norm_nonneg (v : Vector) : 0 <= norm v.
Proof. apply sqrt_pos. Qed.

(** A root of the residual puts the rocker's rod hardpoint, turned by that
    root, at distance [prod] from the control arm's rod hardpoint. *)
Lemma rod_residual_root (m : Matrix) (o pr ca_p : Vector) (prod x : R) :
  0 <= prod ->
  rod_residual m (vadd o (mvmul m vzero)) pr ca_p prod x = 0 ->
  norm (vsub (vadd o (mvmul (mmul m (make_rotation x AxisZ false)) pr)) ca_p)
  = prod.
Proof.
  intros Hprod Hroot. unfold norm.
  replace (sqnorm
             (vsub (vadd o (mvmul (mmul m (make_rotation x AxisZ false)) pr))
                ca_p))
    with (prod ^ 2).
  - now apply sqrt_pow2.
  - unfold rod_residual in Hroot. unfold sqnorm.
    destruct m, o, pr, ca_p. cbn in *. lra.
Qed.

Lemma mvmul_mmul (a b : Matrix) (v : Vector) :
  mvmul (mmul a b) v = mvmul a (mvmul b v).
Proof. apply vector_eq; cbn; ring. Qed.

Lemma orthogonal_sqnorm (m : Matrix) (v : Vector) :
  orthogonal m -> sqnorm (mvmul m v) = sqnorm v.
Proof.
  unfold orthogonal. intros Ho.
  pose proof (f_equal m11 Ho) as H11. pose proof (f_equal m12 Ho) as H12.
  pose proof (f_equal m13 Ho) as H13. pose proof (f_equal m22 Ho) as H22.
  pose proof (f_equal m23 Ho) as H23. pose proof (f_equal m33 Ho) as H33.
  clear Ho. destruct m as [a11 a12 a13 a21 a22 a23 a31 a32 a33].
  destruct v as [x y z]. unfold sqnorm. cbn in *.
  transitivity
    ((a11 * a11 + a21 * a21 + a31 * a31) * (x * x)
     + (a12 * a12 + a22 * a22 + a32 * a32) * (y * y)
     + (a13 * a13 + a23 * a23 + a33 * a33) * (z * z)
     + 2 * (a11 * a12 + a21 * a22 + a31 * a32) * (x * y)
     + 2 * (a11 * a13 + a21 * a23 + a31 * a33) * (x * z)
     + 2 * (a12 * a13 + a22 * a23 + a32 * a33) * (y * z)); [ring |].
  rewrite H11, H12, H13, H22, H23, H33. ring.
Qed.

Lemma make_rotation_sqnorm (a : R) (axis : Axis) (deg : bool) (v : Vector) :
  sqnorm (mvmul (make_rotation a axis deg) v) = sqnorm v.
Proof.
  unfold make_rotation. set (t := radians a deg).
  assert (Hcs : cos t * cos t = 1 - sin t * sin t)
    by (pose proof (sin2_cos2 t) as H; unfold Rsqr in H; lra).
  set (s := sin t) in *. set (c := cos t) in *.
  destruct v as [x y z]. unfold sqnorm.
  destruct axis; cbn; ring [Hcs].
Qed.

(** Two hardpoints of one frame are as far apart in the parent frame as
    their images under the frame's orientation. *)
Lemma sqnorm_shared_frame (o : Vector) (m : Matrix) (q p : Vector) :
  sqnorm (vsub (vadd o (mvmul m q)) (vadd o (mvmul m p)))
  = sqnorm (mvmul m (vsub q p)).
Proof. unfold sqnorm; cbn. ring. Qed.

(** C1.  For an aggregate built by the constructor from a rocker built by
    its constructor, whose links are on separate frame objects (or share a
    frame with an orthogonal orientation): when the root finder answers the
    residual that [rotate_ca] builds with an exact root [x], then
    [rotate_ca] returns [x], and after the call the two rod hardpoints are,
    in the parent frame, exactly the stored rod length apart. *)
Theorem rotate_ca_keeps_rod_length
    (nsolve : (R -> R) -> R -> option R)
    (ca : ControlArm) (arb prod shock : Vector) (fr : ref) (k f : R)
    (h0 h0' : heap) (la : LongAccel)
    (a : R) (deg : bool) (h : heap) (x : R) :
  LongAccel_init ca (Rocker_init arb prod shock fr) k f h0 = (Ok la, h0') ->
  frames_sound h0 h ca (Rocker_init arb prod shock fr) ->
  (forall eqn h1,
      (ControlArm_rotate (la_ca la) a deg ;;; rod_constraint la) h
        = (Ok eqn, h1) ->
      nsolve eqn 0 = Some x /\ eqn x = 0) ->
  exists h',
    LongAccel_rotate_ca nsolve la a deg h = (Ok x, h')
    /\ eval (rod_distance la) h' = Ok (la_prod la).
Proof.
  intros Hinit Hframes Hfinder. apply LongAccel_init_inv in Hinit.
  destruct Hinit as (p & Hp & _ & _ & Hla).
  assert (Hprod : 0 <= la_prod la) by (rewrite Hla; apply norm_nonneg).
  assert (Hca : la_ca la = ca) by (rewrite Hla; reflexivity).
  assert (Hro : la_rocker la = Rocker_init arb prod shock fr)
    by (rewrite Hla; reflexivity).
  assert (Hlen : la_prod la
                 = norm (vsub (in_parent h0 fr prod)
                              (in_parent h0 (ca_frame ca) p)))
    by (rewrite Hla; reflexivity).
  clear Hla.
  unfold LongAccel_rotate_ca, rod_constraint, rod_distance in *.
  rewrite Hca, Hro in *. clear Hca Hro.
  unfold nsolve_float. revert Hfinder. run_methods.
  unfold Rocker_init; cbn [ro_frame pr_l pi_l]. rewrite Hp.
  intros Hfinder. destruct (Hfinder _ _ eq_refl) as [Hsolve Hroot].
  clear Hfinder. rewrite Hsolve. eexists. split; [reflexivity |].
  revert Hroot. clear Hsolve.
  destruct Hframes as [Hne | [Ho0 Ho]]; cbn [Rocker_init ro_frame] in *.
  - (* separate frames: the root condition is the rod constraint *)
    assert (Hne' : fr <> ca_frame ca)
      by (intros E; apply Hne; symmetry; exact E).
    repeat (rewrite ?upd_same, ?(upd_other _ _ _ _ Hne),
              ?(upd_other _ _ _ _ Hne');
            cbn [rotation origin parent fst]).
    intros Hroot. f_equal.
    apply rod_residual_root; assumption.
  - (* one shared frame: both hardpoints turn together *)
    destruct (Nat.eq_dec (ca_frame ca) fr) as [E | Hne].
    + rewrite E in *.
      repeat (rewrite ?upd_same; cbn [rotation origin parent fst]).
      intros _. f_equal. rewrite Hlen. unfold norm, in_parent. f_equal.
      rewrite !sqnorm_shared_frame, !mvmul_mmul.
      rewrite (orthogonal_sqnorm _ _ Ho), (orthogonal_sqnorm _ _ Ho0).
      etransitivity;
        [ exact (make_rotation_sqnorm
                   (if String.eqb (ca_side ca) "r" then - a else a)
                   AxisX deg _)
        | exact (make_rotation_sqnorm x AxisZ false _) ].
    + assert (Hne' : fr <> ca_frame ca)
        by (intros E; apply Hne; symmetry; exact E).
      repeat (rewrite ?upd_same, ?(upd_other _ _ _ _ Hne),
                ?(upd_other _ _ _ _ Hne');
              cbn [rotation origin parent fst]).
      intros Hroot. f_equal.
      apply rod_residual_root; assumption.
Qed.


(** C6, as the code has it.  Neither the constructor nor [get_forces]
    tests a moment arm.  With an invertible rocker orientation and a rod
    hardpoint on the control arm both return normally; a zero shock moment
    arm makes the stored reference force non-finite, and a zero rod moment
    arm makes the rod force that [get_forces] returns non-finite. *)
Theorem zero_moment_arm_not_reported
    (ca : ControlArm) (r : Rocker) (k f : R) (h : heap) (p : Vector) :
  p_l ca = Some p ->
  det (rotation (h (ro_frame r))) <> 0 ->
  (shock_moment_arm h r = Fin 0 ->
   exists la,
     LongAccel_init ca r k f h = (Ok la, h)
     /\ is_finite (sh_force (la_shock la)) = false)
  /\ (forall sh prod side,
        rod_moment_arm h r p (ca_frame ca) = Fin 0 ->
        exists f_shock f_prod,
          LongAccel_get_forces (mkLongAccel ca r sh prod side) h
            = (Ok (f_shock, f_prod), h)
          /\ is_finite f_prod = false).
Proof.
  intros Hp Hdet. split.
  - intros Hzero. eexists. rewrite LongAccel_init_spec.
    destruct (Req_dec_T (det (rotation (h (ro_frame r)))) 0); [contradiction |].
    rewrite Hp. split; [reflexivity |].
    cbn [la_shock sh_force]. unfold balance_shock_force. rewrite Hzero.
    apply ndiv_by_zero.
  - intros sh prod side Hzero. do 2 eexists.
    rewrite LongAccel_get_forces_spec. cbn [la_rocker la_ca la_shock].
    destruct (Req_dec_T (det (rotation (h (ro_frame r)))) 0); [contradiction |].
    rewrite Hp. cbv zeta. split; [reflexivity |].
    rewrite Hzero. apply ndiv_by_zero.
Qed.

(** ** The worked scenario, evaluated *)

Lemma det_mident : det mident = 1.
Proof. unfold det, mident; cbn. ring. Qed.

Lemma minv_of_mident : minv_of mident = mident.
Proof.
  unfold minv_of. rewrite det_mident.
  apply matrix_eq; cbn; field.
Qed.

Lemma mvmul_mident (v : Vector) : mvmul mident v = v.
Proof. destruct v; apply vector_eq; cbn; ring. Qed.

Lemma norm_eq (v : Vector) (n : R) : 0 <= n -> sqnorm v = n * n -> norm v = n.
Proof. intros Hn Hv. unfold norm. rewrite Hv. now apply sqrt_square. Qed.

Lemma vunit_eq (v : Vector) (n : R) :
  n <> 0 -> norm v = n ->
  vunit v = mkNVector (Fin (vx v / n)) (Fin (vy v / n)) (Fin (vz v / n)).
Proof.
  intros Hn Hv. unfold vunit. rewrite Hv, !ndiv_Fin by assumption. reflexivity.
Qed.

Lemma in_parent_frame_at (h : heap) (f : ref) (o v : Vector) :
  h f = frame_at o -> in_parent h f v = vadd o v.
Proof.
  intros Hf. unfold in_parent. rewrite Hf. cbn [frame_at origin rotation].
  now rewrite mvmul_mident.
Qed.

Lemma local_direction_frame_at (h : heap) (r : Rocker) (o v : Vector) :
  h (ro_frame r) = frame_at o -> local_direction h r v = vunit v.
Proof.
  intros Hf. unfold local_direction. rewrite Hf. cbn [frame_at rotation].
  now rewrite minv_of_mident, mvmul_mident.
Qed.

Lemma bench_shock_len :
  norm (in_parent bench_heap (ro_frame bench_rocker) (s_l bench_rocker)) = 5.
Proof.
  rewrite (in_parent_frame_at _ _ (mkVector 0 3 0)) by reflexivity.
  apply norm_eq; [lra |]. unfold sqnorm; cbn. ring.
Qed.

Lemma bench_rod_len :
  norm (vsub (in_parent bench_heap (ro_frame bench_rocker) (pr_l bench_rocker))
             (in_parent bench_heap (ca_frame bench_ca) bench_rod)) = 1.
Proof.
  rewrite (in_parent_frame_at _ _ (mkVector 0 3 0)) by reflexivity.
  rewrite (in_parent_frame_at _ _ vzero) by reflexivity.
  apply norm_eq; [lra |]. unfold sqnorm; cbn. ring.
Qed.

Lemma bench_shock_arm :
  shock_moment_arm bench_heap bench_rocker = Fin (12 / 5).
Proof.
  unfold shock_moment_arm.
  rewrite (local_direction_frame_at _ _ (mkVector 0 3 0)) by reflexivity.
  rewrite (vunit_eq _ 5) by (try lra; apply bench_shock_len).
  rewrite (in_parent_frame_at _ _ (mkVector 0 3 0)) by reflexivity.
  cbn. f_equal. field.
Qed.

Lemma bench_rod_arm :
  rod_moment_arm bench_heap bench_rocker bench_rod (ca_frame bench_ca) = Fin 1.
Proof.
  unfold rod_moment_arm.
  rewrite (local_direction_frame_at _ _ (mkVector 0 3 0)) by reflexivity.
  rewrite (vunit_eq _ 1) by (try lra; apply bench_rod_len).
  rewrite (in_parent_frame_at _ _ (mkVector 0 3 0)) by reflexivity.
  rewrite (in_parent_frame_at _ _ vzero) by reflexivity.
  cbn. f_equal. field.
Qed.

Lemma bench_det : det (rotation (bench_heap (ro_frame bench_rocker))) <> 0.
Proof.
  cbn [bench_heap bench_rocker Rocker_init ro_frame frame_at rotation].
  rewrite det_mident. lra.
Qed.

Lemma bench_init (k f : R) :
  LongAccel_init bench_ca bench_rocker k f bench_heap
  = (Ok (bench_la k f), bench_heap).
Proof.
  rewrite LongAccel_init_spec.
  destruct (Req_dec_T _ 0) as [E | _]; [now apply bench_det in E |].
  change (p_l bench_ca) with (Some bench_rod). unfold balance_shock_force.
  rewrite bench_shock_len, bench_rod_len, bench_shock_arm.
  rewrite bench_rod_arm. cbn [nmul].
  rewrite ndiv_Fin by lra. reflexivity.
Qed.

Lemma flat_det : det (rotation (flat_heap (ro_frame flat_rocker))) <> 0.
Proof.
  cbn [flat_heap frame_at rotation]. rewrite det_mident. lra.
Qed.

Lemma flat_shock_arm : shock_moment_arm flat_heap flat_rocker = Fin 0.
Proof.
  unfold shock_moment_arm.
  rewrite (local_direction_frame_at _ _ vzero) by reflexivity.
  rewrite (in_parent_frame_at _ _ vzero) by reflexivity.
  rewrite (vunit_eq _ 1);
    [| lra | apply norm_eq; [lra | unfold sqnorm; cbn; ring]].
  cbn. f_equal. field.
Qed.

Lemma flat_rod_arm :
  rod_moment_arm flat_heap flat_rocker (mkVector 1 1 0) (ca_frame flat_ca)
  = Fin 1.
Proof.
  unfold rod_moment_arm.
  rewrite (local_direction_frame_at _ _ vzero) by reflexivity.
  rewrite !(in_parent_frame_at _ _ vzero) by reflexivity.
  rewrite (vunit_eq _ 1);
    [| lra | apply norm_eq; [lra | unfold sqnorm; cbn; ring]].
  cbn. f_equal. field.
Qed.

(** ** Instances and counterexamples *)

(** The constructor's control arm of the worked scenario has a rod
    hardpoint, and [get_p_p] returns its position. *)
Lemma ControlArm_get_p_p_raises_iff_witness :
  ControlArm_init (mkVector 0 5 0) (mkVector 1 5 0) 0%nat (Some bench_rod) "l"
    = Ok bench_ca
  /\ (((exists e, ControlArm_get_p_p bench_ca bench_heap = (Raise e, bench_heap))
       <-> Some bench_rod = None)
      /\ (forall p, Some bench_rod = Some p ->
            ControlArm_get_p_p bench_ca bench_heap
              = (Ok (in_parent bench_heap 0%nat p), bench_heap))).
Proof.
  split; [reflexivity |].
  apply (ControlArm_get_p_p_raises_iff (mkVector 0 5 0) (mkVector 1 5 0) 0%nat
           (Some bench_rod) "l" bench_ca bench_heap).
  reflexivity.
Defined.

(** Constructing the worked scenario leaves its store as it was. *)
Lemma LongAccel_init_frame_witness :
  heap_after (LongAccel_init bench_ca bench_rocker 50000 1000) bench_heap
    = bench_heap
  /\ la_ca (bench_la 50000 1000) = bench_ca
  /\ la_rocker (bench_la 50000 1000) = bench_rocker.
Proof.
  destruct (LongAccel_init_frame bench_ca bench_rocker 50000 1000 bench_heap)
    as [Hstore Hlinks].
  split; [exact Hstore |].
  apply Hlinks. unfold eval. now rewrite bench_init.
Defined.

(** The worked scenario satisfies what the statement of C3 asks for. *)
Lemma LongAccel_init_shock_witness :
  exists p,
    p_l bench_ca = Some p
    /\ sh_k (la_shock (bench_la 50000 1000)) = 50000
    /\ sh_len (la_shock (bench_la 50000 1000))
       = norm (in_parent bench_heap (ro_frame bench_rocker) (s_l bench_rocker))
    /\ sh_force (la_shock (bench_la 50000 1000))
       = ndiv (nmul (Fin (- 1000))
                 (rod_moment_arm bench_heap bench_rocker p (ca_frame bench_ca)))
              (shock_moment_arm bench_heap bench_rocker)
    /\ (forall m_rod m_shock,
          rod_moment_arm bench_heap bench_rocker p (ca_frame bench_ca)
            = Fin m_rod ->
          shock_moment_arm bench_heap bench_rocker = Fin m_shock ->
          m_shock <> 0 ->
          sh_force (la_shock (bench_la 50000 1000))
            = Fin (- 1000 * m_rod / m_shock)).
Proof.
  apply (LongAccel_init_shock bench_ca bench_rocker 50000 1000
           bench_heap bench_heap (bench_la 50000 1000)).
  apply bench_init.
Defined.

(** C3, as the claim words it, fails: with the rocker pivot 3 m from the
    parent origin and the shock hardpoint 4 m from the pivot, the stored
    reference length is 5, not 4. *)
Lemma reference_length_not_pivot_distance :
  LongAccel_init bench_ca bench_rocker 50000 1000 bench_heap
    = (Ok (bench_la 50000 1000), bench_heap)
  /\ sh_len (la_shock (bench_la 50000 1000)) = 5
  /\ shock_pivot_distance bench_heap bench_rocker = 4
  /\ sh_len (la_shock (bench_la 50000 1000))
     <> shock_pivot_distance bench_heap bench_rocker.
Proof.
  assert (Hd : shock_pivot_distance bench_heap bench_rocker = 4).
  { unfold shock_pivot_distance.
    rewrite !(in_parent_frame_at _ _ (mkVector 0 3 0)) by reflexivity.
    apply norm_eq; [lra |]. unfold sqnorm; cbn. ring. }
  split; [apply bench_init |]. split; [reflexivity |]. split; [exact Hd |].
  rewrite Hd. cbn [bench_la la_shock sh_len]. lra.
Qed.

(** In the worked scenario the moment arms are 1 and 12/5, and a rod force
    of 1000 N comes back from [get_forces]. *)
Lemma get_forces_after_init_witness :
  exists f_shock,
    LongAccel_get_forces (bench_la 50000 1000) bench_heap
    = (Ok (f_shock, Fin 1000), bench_heap).
Proof.
  apply (get_forces_after_init bench_ca bench_rocker 50000 1000
           bench_heap bench_heap (bench_la 50000 1000) bench_rod 1 (12 / 5)).
  - apply bench_init.
  - reflexivity.
  - apply bench_rod_arm.
  - lra.
  - apply bench_shock_arm.
  - lra.
Defined.


Lemma swing_det : det (rotation (swing_heap (ro_frame swing_rocker))) <> 0.
Proof.
  cbn [swing_heap swing_rocker Rocker_init ro_frame frame_at rotation].
  rewrite det_mident. lra.
Qed.

Lemma swing_rod_len :
  norm (vsub (in_parent swing_heap (ro_frame swing_rocker) (pr_l swing_rocker))
             (in_parent swing_heap (ca_frame swing_ca) swing_rod)) = 5.
Proof.
  rewrite (in_parent_frame_at _ _ (mkVector 3 (-4) 0)) by reflexivity.
  rewrite (in_parent_frame_at _ _ vzero) by reflexivity.
  apply norm_eq; [lra |]. unfold sqnorm; cbn. ring.
Qed.

Lemma swing_init (k f : R) :
  LongAccel_init swing_ca swing_rocker k f swing_heap
  = (Ok (swing_la k f), swing_heap).
Proof.
  rewrite LongAccel_init_spec.
  destruct (Req_dec_T _ 0) as [E | _]; [now apply swing_det in E |].
  change (p_l swing_ca) with (Some swing_rod). cbv iota beta.
  rewrite swing_rod_len. reflexivity.
Qed.

(** After a half turn of the control arm the residual of the second
    scenario vanishes at a quarter turn of the rocker, and not at the
    seed. *)
Lemma swing_residual (eqn : R -> R) (h1 : heap) :
  (ControlArm_rotate (la_ca (swing_la 50000 1000)) 180 true ;;;
   rod_constraint (swing_la 50000 1000)) swing_heap = (Ok eqn, h1) ->
  eqn (PI / 2) = 0 /\ eqn 0 <> 0.
Proof.
  intros Hrun. injection Hrun as <- _.
  unfold rod_residual, make_rotation.
  cbn [swing_la la_ca la_rocker la_prod swing_ca swing_rocker Rocker_init
       ca_frame ca_side p_l pr_l pi_l ro_frame String.eqb Ascii.eqb Bool.eqb
       swing_heap frame_at rotation origin parent upd with_rotation Nat.eqb
       swing_rod].
  unfold radians, swing_rod.
  replace (180 * PI / 180) with PI by field.
  rewrite cos_PI, sin_PI, cos_PI2, sin_PI2, cos_0, sin_0. cbn. split; lra.
Qed.

(** The second scenario: the control arm makes a half turn, the root
    finder answers with a quarter turn of the rocker, and the rod keeps its
    5 m. *)
Lemma rotate_ca_keeps_rod_length_witness :
  exists h',
    LongAccel_rotate_ca (checked_solver (PI / 2)) (swing_la 50000 1000)
      180 true swing_heap = (Ok (PI / 2), h')
    /\ eval (rod_distance (swing_la 50000 1000)) h'
       = Ok (la_prod (swing_la 50000 1000)).
Proof.
  apply (rotate_ca_keeps_rod_length (checked_solver (PI / 2)) swing_ca
           (mkVector 0 1 0) (mkVector 1 0 0) (mkVector 1 4 0) 1%nat 50000 1000
           swing_heap swing_heap (swing_la 50000 1000) 180 true swing_heap
           (PI / 2)).
  - apply swing_init.
  - left. cbn. lia.
  - intros eqn h1 Hrun. destruct (swing_residual eqn h1 Hrun) as [Hroot _].
    split; [| exact Hroot].
    unfold checked_solver.
    destruct (Req_dec_T (eqn (PI / 2)) 0) as [_ | Hn];
      [reflexivity | contradiction].
Defined.



(** C6, as the claim words it, fails.  With the rocker pivot at the parent
    origin the shock moment arm is zero; the constructor raises nothing and
    stores [zoo] as the reference force. *)
Lemma zero_shock_arm_stores_zoo :
  shock_moment_arm flat_heap flat_rocker = Fin 0
  /\ exists la,
      LongAccel_init flat_ca flat_rocker 50000 1000 flat_heap
        = (Ok la, flat_heap)
      /\ sh_force (la_shock la) = Zoo.
Proof.
  split; [apply flat_shock_arm |].
  eexists. rewrite LongAccel_init_spec.
  destruct (Req_dec_T _ 0) as [E | _]; [now apply flat_det in E |].
  change (p_l flat_ca) with (Some (mkVector 1 1 0)).
  split; [reflexivity |].
  cbn [la_shock sh_force]. unfold balance_shock_force.
  rewrite flat_shock_arm, flat_rod_arm. cbn [nmul].
  apply ndiv_nonzero_by_zero. lra.
Qed.

(** The flat scenario meets the side conditions of C6. *)
Lemma zero_moment_arm_not_reported_witness :
  (shock_moment_arm flat_heap flat_rocker = Fin 0 ->
   exists la,
     LongAccel_init flat_ca flat_rocker 50000 1000 flat_heap
       = (Ok la, flat_heap)
     /\ is_finite (sh_force (la_shock la)) = false)
  /\ (forall sh prod side,
        rod_moment_arm flat_heap flat_rocker (mkVector 1 1 0)
          (ca_frame flat_ca) = Fin 0 ->
        exists f_shock f_prod,
          LongAccel_get_forces (mkLongAccel flat_ca flat_rocker sh prod side)
            flat_heap = (Ok (f_shock, f_prod), flat_heap)
          /\ is_finite f_prod = false).
Proof.
  apply (zero_moment_arm_not_reported flat_ca flat_rocker 50000 1000
           flat_heap (mkVector 1 1 0)).
  - reflexivity.
  - apply flat_det.
Defined.

(** * Further properties of the components *)

(** ** Matrix algebra used below *)

Lemma mmul_assoc (a b c : Matrix) : mmul (mmul a b) c = mmul a (mmul b c).
Proof. apply matrix_eq; cbn; ring. Qed.

Lemma mmul_mident_r (m : Matrix) : mmul m mident = m.
Proof. destruct m; apply matrix_eq; cbn; ring. Qed.

Lemma mmul_mident_l (m : Matrix) : mmul mident m = m.
Proof. destruct m; apply matrix_eq; cbn; ring. Qed.

Lemma mtranspose_mmul (a b : Matrix) :
  mtranspose (mmul a b) = mmul (mtranspose b) (mtranspose a).
Proof. apply matrix_eq; cbn; ring. Qed.

Lemma det_mmul (a b : Matrix) : det (mmul a b) = det a * det b.
Proof. unfold det; cbn. ring. Qed.

Lemma radians_plus (a b : R) (deg : bool) :
  radians (a + b) deg = radians a deg + radians b deg.
Proof. destruct deg; unfold radians; [field | reflexivity]. Qed.

Lemma make_rotation_plus (a b : R) (axis : Axis) (deg : bool) :
  mmul (make_rotation a axis deg) (make_rotation b axis deg)
  = make_rotation (a + b) axis deg.
Proof.
  unfold make_rotation. rewrite radians_plus, cos_plus, sin_plus.
  destruct axis; apply matrix_eq; cbn; ring.
Qed.

Lemma make_rotation_0 (axis : Axis) (deg : bool) :
  make_rotation 0 axis deg = mident.
Proof.
  unfold make_rotation.
  replace (radians 0 deg) with 0 by (destruct deg; unfold radians; field).
  rewrite cos_0, sin_0.
  destruct axis; apply matrix_eq; cbn; ring.
Qed.

Lemma make_rotation_full_turn (axis : Axis) :
  make_rotation 360 axis true = mident.
Proof.
  unfold make_rotation.
  replace (radians 360 true) with (2 * PI) by (unfold radians; field).
  rewrite cos_2PI, sin_2PI.
  destruct axis; apply matrix_eq; cbn; ring.
Qed.

Lemma det_make_rotation (a : R) (axis : Axis) (deg : bool) :
  det (make_rotation a axis deg) = 1.
Proof.
  unfold make_rotation. set (t := radians a deg).
  assert (Hcs : cos t * cos t = 1 - sin t * sin t)
    by (pose proof (sin2_cos2 t) as H; unfold Rsqr in H; lra).
  destruct axis; unfold det; cbn; ring [Hcs].
Qed.

Lemma orthogonal_make_rotation (a : R) (axis : Axis) (deg : bool) :
  orthogonal (make_rotation a axis deg).
Proof.
  unfold orthogonal, make_rotation. set (t := radians a deg).
  assert (Hcs : cos t * cos t = 1 - sin t * sin t)
    by (pose proof (sin2_cos2 t) as H; unfold Rsqr in H; lra).
  destruct axis; apply matrix_eq; cbn; ring [Hcs].
Qed.

Lemma orthogonal_mmul (a b : Matrix) :
  orthogonal a -> orthogonal b -> orthogonal (mmul a b).
Proof.
  unfold orthogonal. intros Ha Hb.
  rewrite mtranspose_mmul, mmul_assoc, <- (mmul_assoc (mtranspose a)).
  now rewrite Ha, mmul_mident_l.
Qed.

(** ** The side marker *)

Lemma lower_ascii_r (c : ascii) :
  lower_ascii c = "r"%char -> c = "r"%char \/ c = "R"%char.
Proof.
  destruct c as [b0 b1 b2 b3 b4 b5 b6 b7].
  destruct b0, b1, b2, b3, b4, b5, b6, b7; vm_compute; intros H;
    first [discriminate H | now left | now right].
Qed.

Lemma lower_ascii_l (c : ascii) :
  lower_ascii c = "l"%char -> c = "l"%char \/ c = "L"%char.
Proof.
  destruct c as [b0 b1 b2 b3 b4 b5 b6 b7].
  destruct b0, b1, b2, b3, b4, b5, b6, b7; vm_compute; intros H;
    first [discriminate H | now left | now right].
Qed.

Lemma lower_empty (s : string) : lower s = ""%string -> s = ""%string.
Proof. destruct s; [reflexivity | discriminate]. Qed.

Lemma lower_is_r (s : string) :
  String.eqb (lower s) "r" = true <-> s = "r"%string \/ s = "R"%string.
Proof.
  rewrite String.eqb_eq. split.
  - destruct s as [| c s']; [discriminate |]. cbn [lower].
    intros [= Hc Hs]. apply lower_empty in Hs. subst s'.
    destruct (lower_ascii_r c Hc) as [-> | ->]; [now left | now right].
  - intros [-> | ->]; reflexivity.
Qed.

Lemma lower_is_l (s : string) :
  String.eqb (lower s) "l" = true <-> s = "l"%string \/ s = "L"%string.
Proof.
  rewrite String.eqb_eq. split.
  - destruct s as [| c s']; [discriminate |]. cbn [lower].
    intros [= Hc Hs]. apply lower_empty in Hs. subst s'.
    destruct (lower_ascii_l c Hc) as [-> | ->]; [now left | now right].
  - intros [-> | ->]; reflexivity.
Qed.

(** X1.  The constructor of a control arm accepts exactly the four side
    markers ["r"], ["R"], ["l"] and ["L"]; every other string, the default
    [""] among them, raises [ValueError('invalid side')].  An accepted
    marker is stored as it was written, not lowered. *)
Theorem ControlArm_init_side
    (rear upright : Vector) (frame : ref) (prod : option Vector)
    (side : string) :
  (In side ["r"; "R"; "l"; "L"]%string ->
   ControlArm_init rear upright frame prod side
   = Ok (mkControlArm vzero rear upright frame prod side))
  /\ (~ In side ["r"; "R"; "l"; "L"]%string ->
      ControlArm_init rear upright frame prod side
      = Raise (ValueError "invalid side")).
Proof.
  unfold ControlArm_init.
  destruct (String.eqb (lower side) "r") eqn:Er;
    destruct (String.eqb (lower side) "l") eqn:El; cbn [negb andb].
  - split; [reflexivity |]. intros Hn. exfalso. apply Hn.
    apply lower_is_r in Er. destruct Er as [-> | ->]; cbn; auto 6.
  - split; [reflexivity |]. intros Hn. exfalso. apply Hn.
    apply lower_is_r in Er. destruct Er as [-> | ->]; cbn; auto 6.
  - split; [reflexivity |]. intros Hn. exfalso. apply Hn.
    apply lower_is_l in El. destruct El as [-> | ->]; cbn; auto 6.
  - split; [| reflexivity]. intros Hin. exfalso.
    assert (Hr : String.eqb (lower side) "r" = true
                 \/ String.eqb (lower side) "l" = true).
    { rewrite lower_is_r, lower_is_l. cbn in Hin.
      destruct Hin as [<- | [<- | [<- | [<- | []]]]]; tauto. }
    destruct Hr as [Hr | Hr]; congruence.
Qed.

Lemma ControlArm_init_side_witness :
  ControlArm_init (mkVector 0 5 0) (mkVector 1 5 0) 0%nat None "R"
    = Ok (mkControlArm vzero (mkVector 0 5 0) (mkVector 1 5 0) 0%nat None "R")
  /\ ControlArm_init (mkVector 0 5 0) (mkVector 1 5 0) 0%nat None ""
     = Raise (ValueError "invalid side").
Proof.
  split.
  - apply (proj1 (ControlArm_init_side (mkVector 0 5 0) (mkVector 1 5 0)
                    0%nat None "R")).
    cbn. auto.
  - apply (proj2 (ControlArm_init_side (mkVector 0 5 0) (mkVector 1 5 0)
                    0%nat None "")).
    cbn. intros [H | [H | [H | [H | []]]]]; discriminate H.
Defined.

(** ** Rotating a link *)

(** The angle a control arm is turned by, after the side flip. *)
Lemma ControlArm_rotate_run (ca : ControlArm) (a : R) (deg : bool) (h : heap) :
  ControlArm_rotate ca a deg h
  = (Ok tt,
     with_rotation h (ca_frame ca)
       (mmul (rotation (h (ca_frame ca)))
          (make_rotation (if String.eqb (ca_side ca) "r" then - a else a)
             AxisX deg))).
Proof. reflexivity. Qed.

Lemma Rocker_rotate_run (r : Rocker) (a : R) (deg : bool) (h : heap) :
  Rocker_rotate r a deg h
  = (Ok tt,
     with_rotation h (ro_frame r)
       (mmul (rotation (h (ro_frame r))) (make_rotation a AxisZ deg))).
Proof. reflexivity. Qed.

Lemma with_rotation_twice (h : heap) (f : ref) (m1 m2 : Matrix) (g : ref) :
  with_rotation (with_rotation h f m1) f m2 g = with_rotation h f m2 g.
Proof.
  unfold with_rotation. rewrite !upd_same. cbn [origin parent].
  unfold upd. destruct (Nat.eqb g f); reflexivity.
Qed.

Lemma with_rotation_rotation (h : heap) (f : ref) (m : Matrix) :
  rotation (with_rotation h f m f) = m.
Proof. unfold with_rotation. now rewrite upd_same. Qed.

Lemma with_rotation_same (h : heap) (f : ref) (g : ref) :
  with_rotation h f (rotation (h f)) g = h g.
Proof.
  unfold with_rotation, upd. destruct (Nat.eqb_spec g f) as [-> | _];
    [destruct (h f) |]; reflexivity.
Qed.

(** X2.  Rotations of one link add up: turning by [a] and then by [b]
    leaves every frame of the store exactly as one turn by [a + b] does,
    for a control arm of either side and for a rocker. *)
Theorem rotate_adds_angles (ca : ControlArm) (r : Rocker) (a b : R)
    (deg : bool) (h : heap) (f : ref) :
  heap_after (ControlArm_rotate ca a deg ;;; ControlArm_rotate ca b deg) h f
  = heap_after (ControlArm_rotate ca (a + b) deg) h f
  /\ heap_after (Rocker_rotate r a deg ;;; Rocker_rotate r b deg) h f
     = heap_after (Rocker_rotate r (a + b) deg) h f.
Proof.
  unfold heap_after, bind. split.
  - rewrite (ControlArm_rotate_run ca a). cbv beta iota.
    rewrite !ControlArm_rotate_run. cbn [snd].
    rewrite with_rotation_twice, with_rotation_rotation.
    rewrite mmul_assoc, make_rotation_plus.
    destruct (String.eqb (ca_side ca) "r"); [| reflexivity].
    now replace (- a + - b) with (- (a + b)) by ring.
  - rewrite (Rocker_rotate_run r a). cbv beta iota.
    rewrite !Rocker_rotate_run. cbn [snd].
    rewrite with_rotation_twice, with_rotation_rotation.
    now rewrite mmul_assoc, make_rotation_plus.
Qed.

Lemma make_rotation_full_turn_back (axis : Axis) :
  make_rotation (Ropp 360) axis true = mident.
Proof.
  transitivity (mmul (make_rotation 360 axis true)
                     (make_rotation (Ropp 360) axis true)).
  - now rewrite make_rotation_full_turn, mmul_mident_l.
  - rewrite make_rotation_plus.
    replace (360 + Ropp 360) with 0 by ring. apply make_rotation_0.
Qed.

(** X3.  A turn by zero (in either unit) and a full turn of 360 degrees
    leave every frame of the store as it was, for a control arm of either
    side and for a rocker. *)
Theorem rotate_zero_and_full_turn (ca : ControlArm) (r : Rocker) (deg : bool)
    (h : heap) (f : ref) :
  heap_after (ControlArm_rotate ca 0 deg) h f = h f
  /\ heap_after (ControlArm_rotate ca 360 true) h f = h f
  /\ heap_after (Rocker_rotate r 0 deg) h f = h f
  /\ heap_after (Rocker_rotate r 360 true) h f = h f.
Proof.
  unfold heap_after.
  rewrite !ControlArm_rotate_run, !Rocker_rotate_run. cbn [snd].
  replace (- 0) with 0 by ring.
  assert (H0 : make_rotation (if String.eqb (ca_side ca) "r" then 0 else 0)
                 AxisX deg = mident)
    by (destruct (String.eqb (ca_side ca) "r"); apply make_rotation_0).
  assert (H360 : make_rotation
                   (if String.eqb (ca_side ca) "r" then Ropp 360 else 360)
                   AxisX true = mident).
  { destruct (String.eqb (ca_side ca) "r");
      [apply make_rotation_full_turn_back | apply make_rotation_full_turn]. }
  rewrite H0, H360, make_rotation_0, make_rotation_full_turn, !mmul_mident_r.
  repeat split; apply with_rotation_same.
Qed.

Lemma with_rotation_other (h : heap) (f g : ref) (m : Matrix) :
  g <> f -> with_rotation h f m g = h g.
Proof. intros Hne. unfold with_rotation. now apply upd_other. Qed.

Lemma with_rotation_origin_parent (h : heap) (f g : ref) (m : Matrix) :
  origin (with_rotation h f m g) = origin (h g)
  /\ parent (with_rotation h f m g) = parent (h g).
Proof.
  unfold with_rotation, upd.
  destruct (Nat.eqb_spec g f) as [-> | _]; split; reflexivity.
Qed.

(** X4.  [rotate] writes one field of one object: the orientation of the
    link's own frame.  Every other frame of the store is left as it was,
    and no frame, the link's own included, changes its origin or its
    parent. *)
Theorem rotate_frame_effect (ca : ControlArm) (r : Rocker) (a : R) (deg : bool)
    (h : heap) (f : ref) :
  (f <> ca_frame ca -> heap_after (ControlArm_rotate ca a deg) h f = h f)
  /\ origin (heap_after (ControlArm_rotate ca a deg) h f) = origin (h f)
  /\ parent (heap_after (ControlArm_rotate ca a deg) h f) = parent (h f)
  /\ (f <> ro_frame r -> heap_after (Rocker_rotate r a deg) h f = h f)
  /\ origin (heap_after (Rocker_rotate r a deg) h f) = origin (h f)
  /\ parent (heap_after (Rocker_rotate r a deg) h f) = parent (h f).
Proof.
  unfold heap_after. rewrite ControlArm_rotate_run, Rocker_rotate_run.
  cbn [snd].
  repeat split;
    try (intros Hne; now apply with_rotation_other);
    apply with_rotation_origin_parent.
Qed.

Lemma rotate_frame_effect_witness :
  heap_after (ControlArm_rotate bench_ca 90 true) bench_heap 1%nat
  = bench_heap 1%nat.
Proof.
  apply (proj1 (rotate_frame_effect bench_ca bench_rocker 90 true
                  bench_heap 1%nat)).
  cbn. lia.
Defined.

(** X5.  [rotate] keeps an orientation sound: the determinant of every
    frame's orientation is unchanged (an invertible orientation stays
    invertible, so the inverse taken by [get_forces] keeps existing), and
    an orthogonal orientation stays orthogonal. *)
Theorem rotate_keeps_orientation_sound (ca : ControlArm) (r : Rocker) (a : R)
    (deg : bool) (h : heap) (f : ref) :
  det (rotation (heap_after (ControlArm_rotate ca a deg) h f))
    = det (rotation (h f))
  /\ (orthogonal (rotation (h f)) ->
      orthogonal (rotation (heap_after (ControlArm_rotate ca a deg) h f)))
  /\ det (rotation (heap_after (Rocker_rotate r a deg) h f))
     = det (rotation (h f))
  /\ (orthogonal (rotation (h f)) ->
      orthogonal (rotation (heap_after (Rocker_rotate r a deg) h f))).
Proof.
  unfold heap_after. rewrite ControlArm_rotate_run, Rocker_rotate_run.
  cbn [snd].
  assert (Hturn : forall g m,
            det (rotation (with_rotation h g (mmul (rotation (h g)) m) f))
              = (if Nat.eqb f g then det (rotation (h f)) * det m
                 else det (rotation (h f)))
            /\ (orthogonal m -> orthogonal (rotation (h f)) ->
                orthogonal
                  (rotation (with_rotation h g (mmul (rotation (h g)) m) f)))).
  { intros g m. destruct (Nat.eqb_spec f g) as [-> | Hne].
    - rewrite with_rotation_rotation, det_mmul. split; [reflexivity |].
      intros Hm Ho. now apply orthogonal_mmul.
    - rewrite with_rotation_other by exact Hne. tauto. }
  repeat split.
  - rewrite (proj1 (Hturn _ _)), det_make_rotation.
    destruct (Nat.eqb f (ca_frame ca)); ring.
  - apply Hturn, orthogonal_make_rotation.
  - rewrite (proj1 (Hturn _ _)), det_make_rotation.
    destruct (Nat.eqb f (ro_frame r)); ring.
  - apply Hturn, orthogonal_make_rotation.
Qed.

Lemma orthogonal_mident : orthogonal mident.
Proof. unfold orthogonal. apply matrix_eq; cbn; ring. Qed.

Lemma rotate_keeps_orientation_sound_witness :
  orthogonal
    (rotation (heap_after (Rocker_rotate bench_rocker 90 true) bench_heap 1%nat)).
Proof.
  apply (proj2 (proj2 (proj2
           (rotate_keeps_orientation_sound bench_ca bench_rocker 90 true
              bench_heap 1%nat)))).
  apply orthogonal_mident.
Defined.

Lemma norm_shared_orthogonal (o : Vector) (m : Matrix) (q p : Vector) :
  orthogonal m ->
  norm (vsub (vadd o (mvmul m q)) (vadd o (mvmul m p))) = norm (vsub q p).
Proof.
  intros Ho. unfold norm. f_equal.
  now rewrite sqnorm_shared_frame, orthogonal_sqnorm.
Qed.

(** X6.  A link is rigid.  When its frame holds an orthogonal orientation,
    the distance in the parent frame between two of its hardpoints is
    their distance in local coordinates, and it is the same after the link
    has been rotated by any angle: upright to rear on a control arm, rod to
    shock on a rocker. *)
Theorem rotate_keeps_distances (ca : ControlArm) (r : Rocker) (a : R)
    (deg : bool) (h : heap) :
  orthogonal (rotation (h (ca_frame ca))) ->
  orthogonal (rotation (h (ro_frame r))) ->
  eval (distance_p (ControlArm_get_u_p ca) (ControlArm_get_r_p ca)) h
    = Ok (norm (vsub (u_l ca) (r_l ca)))
  /\ eval (ControlArm_rotate ca a deg ;;;
           distance_p (ControlArm_get_u_p ca) (ControlArm_get_r_p ca)) h
     = Ok (norm (vsub (u_l ca) (r_l ca)))
  /\ eval (distance_p (Rocker_get_pr_p r) (Rocker_get_s_p r)) h
     = Ok (norm (vsub (pr_l r) (s_l r)))
  /\ eval (Rocker_rotate r a deg ;;;
           distance_p (Rocker_get_pr_p r) (Rocker_get_s_p r)) h
     = Ok (norm (vsub (pr_l r) (s_l r))).
Proof.
  intros Hc Hr. unfold distance_p. run_methods.
  rewrite !upd_same. cbn [rotation origin parent].
  repeat split; f_equal; apply norm_shared_orthogonal;
    try assumption; apply orthogonal_mmul;
    solve [assumption | apply orthogonal_make_rotation].
Qed.

Lemma rotate_keeps_distances_witness :
  eval (ControlArm_rotate bench_ca 90 true ;;;
        distance_p (ControlArm_get_u_p bench_ca) (ControlArm_get_r_p bench_ca))
    bench_heap
  = Ok (norm (vsub (u_l bench_ca) (r_l bench_ca))).
Proof.
  apply (rotate_keeps_distances bench_ca bench_rocker 90 true bench_heap);
    apply orthogonal_mident.
Defined.

(** X7.  [rotate] turns a link about an axis through the origin of its
    frame.  On links as the constructors build them the pivot hardpoint
    (front hardpoint of a control arm, pivot of a rocker) does not move in
    the parent frame; nor does a rear hardpoint that lies on the control
    arm's local x-axis, nor a rocker hardpoint on the local z-axis. *)
Theorem rotate_fixes_axis
    (rear upright : Vector) (fc : ref) (prod : option Vector) (side : string)
    (ca : ControlArm) (arb rod shock : Vector) (fr : ref)
    (a : R) (deg : bool) (h : heap) :
  ControlArm_init rear upright fc prod side = Ok ca ->
  eval (ControlArm_rotate ca a deg ;;; ControlArm_get_f_p ca) h
    = eval (ControlArm_get_f_p ca) h
  /\ (vy rear = 0 -> vz rear = 0 ->
      eval (ControlArm_rotate ca a deg ;;; ControlArm_get_r_p ca) h
      = eval (ControlArm_get_r_p ca) h)
  /\ eval (Rocker_rotate (Rocker_init arb rod shock fr) a deg ;;;
           Rocker_get_pi_p (Rocker_init arb rod shock fr)) h
     = eval (Rocker_get_pi_p (Rocker_init arb rod shock fr)) h
  /\ (vx shock = 0 -> vy shock = 0 ->
      eval (Rocker_rotate (Rocker_init arb rod shock fr) a deg ;;;
            Rocker_get_s_p (Rocker_init arb rod shock fr)) h
      = eval (Rocker_get_s_p (Rocker_init arb rod shock fr)) h).
Proof.
  unfold ControlArm_init.
  destruct (negb (String.eqb (lower side) "r") && negb (String.eqb (lower side) "l"));
    [discriminate |].
  intros [= <-]. unfold Rocker_init. run_methods.
  cbn [f_l r_l s_l pi_l ca_frame ca_side ro_frame].
  rewrite !upd_same. cbn [rotation origin parent].
  repeat split.
  - f_equal. apply vector_eq; cbn; ring.
  - intros Hy Hz. f_equal. destruct rear as [x y z]. cbn in Hy, Hz. subst.
    apply vector_eq; cbn; ring.
  - f_equal. apply vector_eq; cbn; ring.
  - intros Hx Hy. f_equal. destruct shock as [x y z]. cbn in Hx, Hy. subst.
    apply vector_eq; cbn; ring.
Qed.

Lemma rotate_fixes_axis_witness :
  eval (ControlArm_rotate bench_ca 90 true ;;; ControlArm_get_f_p bench_ca)
    bench_heap
  = eval (ControlArm_get_f_p bench_ca) bench_heap.
Proof.
  apply (proj1 (rotate_fixes_axis (mkVector 0 5 0) (mkVector 1 5 0) 0%nat
                  (Some bench_rod) "l" bench_ca
                  (mkVector 1 1 0) (mkVector 0 1 0) (mkVector 4 0 0) 1%nat
                  90 true bench_heap eq_refl)).
Defined.

(** ** LongAccel: errors, purity and the moment balance *)

(** X8.  The errors of the constructor and of [get_forces] for a rocker
    with an invertible orientation: both raise [ValueError] when the
    control arm has no rod hardpoint, and both return normally when it has
    one, whatever the moment arms are.  [get_forces] never writes to the
    store. *)
Theorem LongAccel_errors (ca : ControlArm) (r : Rocker) (k f : R)
    (sh : Shock) (prod : R) (side : string) (h : heap) :
  det (rotation (h (ro_frame r))) <> 0 ->
  heap_after (LongAccel_get_forces (mkLongAccel ca r sh prod side)) h = h
  /\ (p_l ca = None ->
      eval (LongAccel_init ca r k f) h
        = Raise (ValueError "no push/pullrod hardpoint")
      /\ eval (LongAccel_get_forces (mkLongAccel ca r sh prod side)) h
         = Raise (ValueError "no push/pullrod hardpoint"))
  /\ (p_l ca <> None ->
      (exists built, eval (LongAccel_init ca r k f) h = Ok built)
      /\ (exists forces,
            eval (LongAccel_get_forces (mkLongAccel ca r sh prod side)) h
            = Ok forces)).
Proof.
  intros Hd. unfold heap_after, eval.
  rewrite LongAccel_init_spec, LongAccel_get_forces_spec.
  cbn [fst snd la_rocker la_ca]. cbv zeta.
  split; [reflexivity |].
  destruct (Req_dec_T (det (rotation (h (ro_frame r)))) 0) as [E | _];
    [contradiction |].
  destruct (p_l ca) as [p |].
  - split; [intros Hn; discriminate Hn |].
    intros _. split; eexists; reflexivity.
  - split; [intros _; split; reflexivity |].
    intros Hn. now elim Hn.
Qed.

Lemma LongAccel_errors_witness :
  (exists built,
      eval (LongAccel_init bench_ca bench_rocker 50000 1000) bench_heap
      = Ok built)
  /\ (exists forces,
        eval (LongAccel_get_forces
                (mkLongAccel bench_ca bench_rocker (mkShock 50000 5 (Fin 0))
                   1 "l")) bench_heap
        = Ok forces).
Proof.
  apply (proj2 (proj2
           (LongAccel_errors bench_ca bench_rocker 50000 1000
              (mkShock 50000 5 (Fin 0)) 1 "l" bench_heap bench_det))).
  discriminate.
Defined.

(** X9.  The pair returned by [get_forces] satisfies the moment balance
    about the rocker pivot: with finite moment arms, a non-zero rod moment
    arm and a finite shock force,
    [f_prod * m_prod + f_shock * m_shock = 0]. *)
Theorem get_forces_moment_balance (la : LongAccel) (h : heap) (p : Vector)
    (m_rod m_shock f_shock : R) (f_prod : num) :
  p_l (la_ca la) = Some p ->
  rod_moment_arm h (la_rocker la) p (ca_frame (la_ca la)) = Fin m_rod ->
  m_rod <> 0 ->
  shock_moment_arm h (la_rocker la) = Fin m_shock ->
  eval (LongAccel_get_forces la) h = Ok (Fin f_shock, f_prod) ->
  exists y, f_prod = Fin y /\ y * m_rod + f_shock * m_shock = 0.
Proof.
  intros Hp Hrod Hr Hshock. unfold eval.
  rewrite LongAccel_get_forces_spec. cbn [fst]. cbv zeta.
  destruct (Req_dec_T _ 0); [discriminate |].
  rewrite Hp, Hrod, Hshock. intros [= Hf <-]. rewrite Hf.
  cbn [nopp nmul]. rewrite ndiv_Fin by assumption.
  eexists. split; [reflexivity |]. field. assumption.
Qed.

Lemma bench_get_forces :
  eval (LongAccel_get_forces (bench_la 50000 1000)) bench_heap
  = Ok (Fin (- 1000 * 1 / (12 / 5) + 50000 * (5 - 5)),
        ndiv (nmul (nopp (Fin (- 1000 * 1 / (12 / 5) + 50000 * (5 - 5))))
                (Fin (12 / 5))) (Fin 1)).
Proof.
  unfold eval. rewrite LongAccel_get_forces_spec. cbn [fst]. cbv zeta.
  destruct (Req_dec_T _ 0) as [E | _]; [now apply bench_det in E |].
  change (p_l (la_ca (bench_la 50000 1000))) with (Some bench_rod).
  change (la_rocker (bench_la 50000 1000)) with bench_rocker.
  change (ca_frame (la_ca (bench_la 50000 1000))) with (ca_frame bench_ca).
  rewrite bench_shock_len, bench_shock_arm, bench_rod_arm. reflexivity.
Qed.

Lemma get_forces_moment_balance_witness :
  exists y,
    ndiv (nmul (nopp (Fin (- 1000 * 1 / (12 / 5) + 50000 * (5 - 5))))
            (Fin (12 / 5))) (Fin 1) = Fin y
    /\ y * 1 + (- 1000 * 1 / (12 / 5) + 50000 * (5 - 5)) * (12 / 5) = 0.
Proof.
  apply (get_forces_moment_balance (bench_la 50000 1000) bench_heap bench_rod
           1 (12 / 5)).
  - reflexivity.
  - apply bench_rod_arm.
  - lra.
  - apply bench_shock_arm.
  - apply bench_get_forces.
Defined.

Lemma norm_zero_iff (v : Vector) : norm v = 0 <-> v = vzero.
Proof.
  split.
  - intros Hn. unfold norm in Hn. apply sqrt_eq_0 in Hn.
    + unfold sqnorm in Hn. destruct v as [x y z]. cbn [vx vy vz] in Hn.
      assert (Hx : 0 <= x ^ 2) by apply pow2_ge_0.
      assert (Hy : 0 <= y ^ 2) by apply pow2_ge_0.
      assert (Hz : 0 <= z ^ 2) by apply pow2_ge_0.
      unfold vzero. f_equal; nra.
    + unfold sqnorm.
      pose proof (pow2_ge_0 (vx v)). pose proof (pow2_ge_0 (vy v)).
      pose proof (pow2_ge_0 (vz v)). lra.
  - intros ->. unfold norm, sqnorm, vzero. cbn [vx vy vz].
    replace (0 ^ 2 + 0 ^ 2 + 0 ^ 2) with 0 by ring. apply sqrt_0.
Qed.

Lemma nmul_nonfinite_l (a b : num) :
  is_finite a = false -> is_finite (nmul a b) = false.
Proof.
  destruct a as [x | |]; [discriminate | |]; intros _;
    destruct b as [y | |]; cbn; try reflexivity.
  destruct (Req_dec_T y 0); reflexivity.
Qed.

Lemma ndiv_nonfinite_l (a b : num) :
  is_finite a = false -> is_finite (ndiv a b) = false.
Proof. intros Ha. unfold ndiv. now apply nmul_nonfinite_l. Qed.

Lemma nadd_nonfinite_l (a : num) (x : R) :
  is_finite a = false -> nadd a (Fin x) = a.
Proof. destruct a; [discriminate | reflexivity | reflexivity]. Qed.

Lemma nopp_nonfinite (a : num) :
  is_finite a = false -> is_finite (nopp a) = false.
Proof. destruct a; [discriminate | reflexivity | reflexivity]. Qed.

(** X11.  A non-finite reference force is never repaired.  The shock then
    returns that same value at every length, and whenever [get_forces]
    returns, both the shock force and the rod force it returns are
    non-finite, whatever the frames and moment arms have become. *)
Theorem nonfinite_force_propagates (la : LongAccel) (h : heap)
    (f_shock f_prod : num) :
  is_finite (sh_force (la_shock la)) = false ->
  (forall len, Shock_get_force (la_shock la) len = sh_force (la_shock la))
  /\ (eval (LongAccel_get_forces la) h = Ok (f_shock, f_prod) ->
      is_finite f_shock = false /\ is_finite f_prod = false).
Proof.
  intros Hnf.
  assert (Hforce : forall len,
            Shock_get_force (la_shock la) len = sh_force (la_shock la))
    by (intros len; unfold Shock_get_force; now apply nadd_nonfinite_l).
  split; [exact Hforce |].
  unfold eval. rewrite LongAccel_get_forces_spec. cbn [fst]. cbv zeta.
  destruct (Req_dec_T _ 0); [discriminate |].
  destruct (p_l (la_ca la)); [| discriminate].
  rewrite Hforce. intros [= <- <-]. split; [exact Hnf |].
  apply ndiv_nonfinite_l, nmul_nonfinite_l, nopp_nonfinite, Hnf.
Qed.

Lemma nonfinite_force_propagates_witness :
  Shock_get_force (la_shock (mkLongAccel flat_ca flat_rocker
                               (mkShock 50000 1 Zoo) 1 "l")) 2
  = Zoo.
Proof.
  apply (proj1 (nonfinite_force_propagates
                  (mkLongAccel flat_ca flat_rocker (mkShock 50000 1 Zoo) 1 "l")
                  flat_heap Zoo Zoo eq_refl) 2).
Defined.

(** X12.  With a finite reference force the spring force is finite at
    every length, two lengths differ in force by [k] times their
    difference, and for a positive stiffness the shorter spring pushes
    harder. *)
Theorem Shock_get_force_monotone (k L0 F0 l1 l2 : R) :
  exists f1 f2,
    Shock_get_force (mkShock k L0 (Fin F0)) l1 = Fin f1
    /\ Shock_get_force (mkShock k L0 (Fin F0)) l2 = Fin f2
    /\ f1 - f2 = k * (l2 - l1)
    /\ (0 < k -> l1 < l2 -> f2 < f1).
Proof.
  unfold Shock_get_force; cbn [sh_k sh_len sh_force nadd].
  do 2 eexists. split; [reflexivity |]. split; [reflexivity |].
  split; [ring | intros Hk Hl; nra].
Qed.

(** The store after [rotate_ca]: the control arm is always turned; the
    rocker is turned only if the rod hardpoint exists and the root finder
    answered. *)
Lemma rotate_ca_store
    (nsolve : (R -> R) -> R -> option R)
    (la : LongAccel) (a : R) (deg : bool) (h : heap) :
  heap_after (LongAccel_rotate_ca nsolve la a deg) h
    = heap_after (ControlArm_rotate (la_ca la) a deg) h
  \/ exists x,
      heap_after (LongAccel_rotate_ca nsolve la a deg) h
      = with_rotation (heap_after (ControlArm_rotate (la_ca la) a deg) h)
          (ro_frame (la_rocker la))
          (mmul (rotation (heap_after (ControlArm_rotate (la_ca la) a deg) h
                             (ro_frame (la_rocker la))))
             (make_rotation x AxisZ false)).
Proof.
  unfold heap_after, LongAccel_rotate_ca, rod_constraint, nsolve_float.
  unfold ControlArm_get_p_p.
  destruct (p_l (la_ca la)) as [p |]; run_methods; [| now left].
  destruct (nsolve _ 0) as [x |]; [| now left].
  right. exists x. reflexivity.
Qed.

(** X13.  Whatever [rotate_ca] does, whether it returns or raises, and for
    every root finder: it writes only orientations, and only those of the
    control arm's and the rocker's frames.  Every other frame is left as
    it was, and no frame changes its origin or its parent. *)
Theorem rotate_ca_frame_effect
    (nsolve : (R -> R) -> R -> option R)
    (la : LongAccel) (a : R) (deg : bool) (h : heap) (f : ref) :
  (f <> ca_frame (la_ca la) -> f <> ro_frame (la_rocker la) ->
   heap_after (LongAccel_rotate_ca nsolve la a deg) h f = h f)
  /\ origin (heap_after (LongAccel_rotate_ca nsolve la a deg) h f)
     = origin (h f)
  /\ parent (heap_after (LongAccel_rotate_ca nsolve la a deg) h f)
     = parent (h f).
Proof.
  assert (H1 : (f <> ca_frame (la_ca la) ->
                heap_after (ControlArm_rotate (la_ca la) a deg) h f = h f)
               /\ origin (heap_after (ControlArm_rotate (la_ca la) a deg) h f)
                  = origin (h f)
               /\ parent (heap_after (ControlArm_rotate (la_ca la) a deg) h f)
                  = parent (h f)).
  { unfold heap_after. rewrite ControlArm_rotate_run. cbn [snd].
    split; [intros Hne; now apply with_rotation_other |].
    apply with_rotation_origin_parent. }
  destruct H1 as (H1a & H1o & H1p).
  destruct (rotate_ca_store nsolve la a deg h) as [-> | [x ->]].
  - repeat split; auto.
  - set (h1 := heap_after (ControlArm_rotate (la_ca la) a deg) h) in *.
    destruct (with_rotation_origin_parent h1 (ro_frame (la_rocker la)) f
                (mmul (rotation (h1 (ro_frame (la_rocker la))))
                   (make_rotation x AxisZ false))) as [Ho Hp].
    repeat split.
    + intros Hc Hr. rewrite with_rotation_other by exact Hr. auto.
    + now rewrite Ho.
    + now rewrite Hp.
Qed.

Lemma rotate_ca_frame_effect_witness :
  heap_after (LongAccel_rotate_ca (checked_solver 0) (bench_la 50000 1000) 90 true)
    bench_heap 2%nat
  = bench_heap 2%nat.
Proof.
  apply (proj1 (rotate_ca_frame_effect (checked_solver 0) (bench_la 50000 1000)
                  90 true bench_heap 2%nat)); cbn; lia.
Defined.

Lemma det_with_rotation (h : heap) (g f : ref) (m : Matrix) :
  det m = 1 ->
  det (rotation (with_rotation h g (mmul (rotation (h g)) m) f))
  = det (rotation (h f)).
Proof.
  intros Hm. destruct (Nat.eq_dec f g) as [-> | Hne].
  - rewrite with_rotation_rotation, det_mmul, Hm. ring.
  - now rewrite with_rotation_other.
Qed.

(** X14.  An aggregate that could be built keeps answering force queries:
    after [rotate_ca], whether it returned or raised and whatever the root
    finder did, [get_forces] returns a pair and raises nothing, as long as
    the rocker's orientation was invertible before the call. *)
Theorem get_forces_after_rotate_ca
    (nsolve : (R -> R) -> R -> option R)
    (ca : ControlArm) (r : Rocker) (k f : R) (h0 h0' : heap) (la : LongAccel)
    (a : R) (deg : bool) (h : heap) :
  LongAccel_init ca r k f h0 = (Ok la, h0') ->
  det (rotation (h (ro_frame r))) <> 0 ->
  exists forces,
    eval (LongAccel_get_forces la)
      (heap_after (LongAccel_rotate_ca nsolve la a deg) h) = Ok forces.
Proof.
  intros Hinit Hd. apply LongAccel_init_inv in Hinit.
  destruct Hinit as (p & Hp & _ & _ & Hla).
  assert (Hca : la_ca la = ca) by (rewrite Hla; reflexivity).
  assert (Hro : la_rocker la = r) by (rewrite Hla; reflexivity).
  assert (Hdet : det (rotation
                        (heap_after (LongAccel_rotate_ca nsolve la a deg) h
                           (ro_frame r)))
                 = det (rotation (h (ro_frame r)))).
  { assert (H1 : det (rotation
                        (heap_after (ControlArm_rotate (la_ca la) a deg) h
                           (ro_frame r)))
                 = det (rotation (h (ro_frame r)))).
    { unfold heap_after. rewrite ControlArm_rotate_run. cbn [snd].
      apply det_with_rotation, det_make_rotation. }
    destruct (rotate_ca_store nsolve la a deg h) as [-> | [x ->]];
      [exact H1 |].
    rewrite Hro, det_with_rotation by apply det_make_rotation. exact H1. }
  unfold eval. rewrite LongAccel_get_forces_spec. cbn [fst]. cbv zeta.
  rewrite Hro, Hca, Hp.
  destruct (Req_dec_T _ 0) as [E | _]; [| eexists; reflexivity].
  rewrite Hdet in E. contradiction.
Qed.

Lemma get_forces_after_rotate_ca_witness :
  exists forces,
    eval (LongAccel_get_forces (bench_la 50000 1000))
      (heap_after
         (LongAccel_rotate_ca (checked_solver 0) (bench_la 50000 1000) 90 true)
         bench_heap) = Ok forces.
Proof.
  apply (get_forces_after_rotate_ca (checked_solver 0) bench_ca bench_rocker
           50000 1000 bench_heap bench_heap (bench_la 50000 1000)
           90 true bench_heap).
  - apply bench_init.
  - apply bench_det.
Defined.

(** X15.  Right after construction the seed of the root finder is an
    exact root for a turn by zero: the residual that [rotate_ca(0)] builds
    vanishes at [0], for a rocker built by its constructor. *)
Theorem residual_vanishes_at_seed
    (ca : ControlArm) (arb rod shock : Vector) (fr : ref) (k f : R)
    (h h' : heap) (la : LongAccel) (deg : bool) :
  LongAccel_init ca (Rocker_init arb rod shock fr) k f h = (Ok la, h') ->
  exists eqn h1,
    (ControlArm_rotate (la_ca la) 0 deg ;;; rod_constraint la) h
      = (Ok eqn, h1)
    /\ eqn 0 = 0.
Proof.
  intros Hinit. apply LongAccel_init_inv in Hinit.
  destruct Hinit as (p & Hp & _ & _ & ->).
  unfold rod_constraint. cbn [la_ca la_rocker la_prod].
  unfold bind at 1. rewrite ControlArm_rotate_run.
  replace (if String.eqb (ca_side ca) "r" then - 0 else 0) with 0
    by (destruct (String.eqb (ca_side ca) "r"); ring).
  rewrite make_rotation_0, mmul_mident_r.
  run_methods. rewrite Hp. do 2 eexists. split; [reflexivity |].
  unfold rod_residual. rewrite make_rotation_0, mmul_mident_r.
  unfold Rocker_init. cbn [ro_frame pr_l pi_l].
  assert (Hsame : forall g,
            upd h (ca_frame ca)
              (mkRefFrame (origin (h (ca_frame ca)))
                 (rotation (h (ca_frame ca))) (parent (h (ca_frame ca)))) g
            = h g) by (intros g; apply (with_rotation_same h (ca_frame ca) g)).
  rewrite !Hsame.
  set (d := vsub (in_parent h fr rod) (in_parent h (ca_frame ca) p)).
  assert (Hsq : norm d ^ 2 = sqnorm d).
  { unfold norm. rewrite <- Rsqr_pow2. apply Rsqr_sqrt. unfold sqnorm.
    pose proof (pow2_ge_0 (vx d)). pose proof (pow2_ge_0 (vy d)).
    pose proof (pow2_ge_0 (vz d)). lra. }
  rewrite Hsq. unfold sqnorm, d, in_parent.
  destruct (origin (h fr)), (rotation (h fr)), rod,
    (origin (h (ca_frame ca))), (rotation (h (ca_frame ca))), p.
  cbn. ring.
Qed.

Lemma residual_vanishes_at_seed_witness :
  exists eqn h1,
    (ControlArm_rotate (la_ca (bench_la 50000 1000)) 0 true ;;;
     rod_constraint (bench_la 50000 1000)) bench_heap = (Ok eqn, h1)
    /\ eqn 0 = 0.
Proof.
  apply (residual_vanishes_at_seed bench_ca
           (mkVector 1 1 0) (mkVector 0 1 0) (mkVector 4 0 0) 1%nat
           50000 1000 bench_heap bench_heap (bench_la 50000 1000) true).
  apply bench_init.
Defined.

(** X16.  Right after construction the spring is at its reference length:
    the shock force that [get_forces] returns is the stored reference
    force itself, finite or not. *)
Theorem get_forces_returns_reference_force
    (ca : ControlArm) (r : Rocker) (k f : R) (h h' : heap) (la : LongAccel) :
  LongAccel_init ca r k f h = (Ok la, h') ->
  exists f_prod,
    eval (LongAccel_get_forces la) h'
    = Ok (sh_force (la_shock la), f_prod).
Proof.
  intros Hinit. apply LongAccel_init_inv in Hinit.
  destruct Hinit as (p & Hp & Hd & -> & ->).
  unfold eval. rewrite LongAccel_get_forces_spec.
  cbn [fst la_rocker la_ca la_shock sh_force]. cbv zeta.
  destruct (Req_dec_T _ 0); [contradiction |].
  rewrite Hp. unfold Shock_get_force. cbn [sh_force sh_k sh_len].
  rewrite nadd_Fin_0 by ring. eexists. reflexivity.
Qed.

Lemma get_forces_returns_reference_force_witness :
  exists f_prod,
    eval (LongAccel_get_forces (bench_la 50000 1000)) bench_heap
    = Ok (sh_force (la_shock (bench_la 50000 1000)), f_prod).
Proof.
  apply (get_forces_returns_reference_force bench_ca bench_rocker 50000 1000
           bench_heap bench_heap (bench_la 50000 1000)).
  apply bench_init.
Defined.

(** ** ControlArm.force_u *)

Lemma vunit_finite (v : Vector) :
  v <> vzero ->
  norm v <> 0
  /\ vunit v = nvfin (vscale (/ norm v) v).
Proof.
  intros Hv.
  assert (Hn : norm v <> 0) by (intros Hz; apply Hv; now apply norm_zero_iff).
  split; [exact Hn |].
  rewrite (vunit_eq _ _ Hn eq_refl). unfold nvfin, vscale. cbn [vx vy vz].
  f_equal; f_equal; field; exact Hn.
Qed.

Lemma sqnorm_vscale_unit (c : R) (v : Vector) :
  norm v <> 0 -> sqnorm (vscale (c / norm v) v) = c ^ 2.
Proof.
  intros Hn.
  assert (Hsq : norm v * norm v = sqnorm v).
  { unfold norm. apply sqrt_sqrt. unfold sqnorm.
    pose proof (pow2_ge_0 (vx v)). pose proof (pow2_ge_0 (vy v)).
    pose proof (pow2_ge_0 (vz v)). lra. }
  unfold sqnorm in *. unfold vscale. cbn [vx vy vz].
  set (n := norm v) in *.
  replace ((c / n * vx v) ^ 2 + (c / n * vy v) ^ 2 + (c / n * vz v) ^ 2)
    with (c ^ 2 * (vx v ^ 2 + vy v ^ 2 + vz v ^ 2) / (n * n))
    by (field; exact Hn).
  rewrite <- Hsq. field. exact Hn.
Qed.

(** X17.  [force_u] in a non-degenerate control arm (upright hardpoint
    away from the front hardpoint, rear hardpoint away from the upright).
    A front-rod force alone gives a finite force of magnitude [|force_f|]
    along the line from the upright to the front hardpoint; a rear-rod
    force alone gives one of magnitude [|force_r|] along the line from the
    upright to the rear hardpoint. *)
Theorem force_u_single_rod (ca : ControlArm) (force_f force_r : R) :
  u_l ca <> vzero ->
  r_l ca <> u_l ca ->
  fst (ControlArm_force_u ca force_f 0)
    = nvfin (vscale (- force_f / norm (u_l ca)) (u_l ca))
  /\ sqnorm (vscale (- force_f / norm (u_l ca)) (u_l ca)) = force_f ^ 2
  /\ fst (ControlArm_force_u ca 0 force_r)
     = nvfin (vscale (force_r / norm (vsub (r_l ca) (u_l ca)))
                (vsub (r_l ca) (u_l ca)))
  /\ sqnorm (vscale (force_r / norm (vsub (r_l ca) (u_l ca)))
               (vsub (r_l ca) (u_l ca))) = force_r ^ 2.
Proof.
  intros Hu Hr.
  assert (Hd : vsub (r_l ca) (u_l ca) <> vzero).
  { intros Hz. apply Hr. apply (f_equal vx) in Hz as Hx.
    apply (f_equal vy) in Hz as Hy. apply (f_equal vz) in Hz.
    cbn in Hx, Hy, Hz. apply vector_eq; lra. }
  destruct (vunit_finite _ Hu) as [Hnu Hunit_u].
  destruct (vunit_finite _ Hd) as [Hnd Hunit_d].
  unfold ControlArm_force_u. cbn [fst]. rewrite Hunit_u, Hunit_d.
  repeat split.
  - unfold nvfin, nvadd, nvscale, nvopp, vscale. cbn.
    f_equal; f_equal; field; repeat split; assumption.
  - rewrite sqnorm_vscale_unit by exact Hnu. ring.
  - unfold nvfin, nvadd, nvscale, nvopp, vscale. cbn.
    f_equal; f_equal; field; repeat split; assumption.
  - now apply sqnorm_vscale_unit.
Qed.

Lemma force_u_single_rod_witness :
  fst (ControlArm_force_u bench_ca 1000 0)
  = nvfin (vscale (- 1000 / norm (u_l bench_ca)) (u_l bench_ca)).
Proof.
  apply (force_u_single_rod bench_ca 1000 0).
  - intros H. apply (f_equal vx) in H. cbn in H. lra.
  - intros H. apply (f_equal vx) in H. cbn in H. lra.
Defined.

(** X18.  [force_u] superposes: in a non-degenerate control arm the force
    for rod forces [(f1 + f2, r1 + r2)] is the sum of the forces for
    [(f1, r1)] and [(f2, r2)], and zero rod forces give the zero force. *)
Theorem force_u_superposes (ca : ControlArm) (f1 r1 f2 r2 : R) :
  u_l ca <> vzero ->
  r_l ca <> u_l ca ->
  fst (ControlArm_force_u ca (f1 + f2) (r1 + r2))
    = nvadd (fst (ControlArm_force_u ca f1 r1))
            (fst (ControlArm_force_u ca f2 r2))
  /\ fst (ControlArm_force_u ca 0 0) = nvfin vzero.
Proof.
  intros Hu Hr.
  assert (Hd : vsub (r_l ca) (u_l ca) <> vzero).
  { intros Hz. apply Hr. apply (f_equal vx) in Hz as Hx.
    apply (f_equal vy) in Hz as Hy. apply (f_equal vz) in Hz.
    cbn in Hx, Hy, Hz. apply vector_eq; lra. }
  destruct (vunit_finite _ Hu) as [Hnu Hunit_u].
  destruct (vunit_finite _ Hd) as [Hnd Hunit_d].
  unfold ControlArm_force_u. cbn [fst]. rewrite Hunit_u, Hunit_d.
  unfold nvfin, nvadd, nvscale, nvopp, vscale, vzero. cbn.
  split; f_equal; f_equal; ring.
Qed.

Lemma force_u_superposes_witness :
  fst (ControlArm_force_u bench_ca 0 0) = nvfin vzero.
Proof.
  apply (force_u_superposes bench_ca 0 0 0 0).
  - intros H. apply (f_equal vx) in H. cbn in H. lra.
  - intros H. apply (f_equal vx) in H. cbn in H. lra.
Defined.

(** ** Two links on separate frames *)

(** X20.  Turning the control arm and turning the rocker are independent
    when the two links are on separate frame objects: done in either
    order, they leave every frame of the store the same. *)
Theorem rotations_of_separate_links_commute
    (ca : ControlArm) (r : Rocker) (a b : R) (deg deg' : bool) (h : heap)
    (f : ref) :
  ca_frame ca <> ro_frame r ->
  heap_after (ControlArm_rotate ca a deg ;;; Rocker_rotate r b deg') h f
  = heap_after (Rocker_rotate r b deg' ;;; ControlArm_rotate ca a deg) h f.
Proof.
  intros Hne.
  assert (Hne' : ro_frame r <> ca_frame ca)
    by (intros E; apply Hne; symmetry; exact E).
  unfold heap_after, bind.
  rewrite (ControlArm_rotate_run ca a deg h), (Rocker_rotate_run r b deg' h).
  cbv beta iota. rewrite ControlArm_rotate_run, Rocker_rotate_run. cbn [snd].
  rewrite (with_rotation_other _ _ _ _ Hne'), (with_rotation_other _ _ _ _ Hne).
  unfold with_rotation.
  rewrite (upd_other _ _ _ _ Hne'), (upd_other _ _ _ _ Hne).
  unfold upd.
  destruct (Nat.eqb_spec f (ro_frame r)) as [Er | _];
    destruct (Nat.eqb_spec f (ca_frame ca)) as [Ec | _];
    try reflexivity.
  exfalso. apply Hne. now rewrite <- Er, <- Ec.
Qed.

Lemma rotations_of_separate_links_commute_witness :
  heap_after (ControlArm_rotate bench_ca 90 true ;;;
              Rocker_rotate bench_rocker 30 true) bench_heap 1%nat
  = heap_after (Rocker_rotate bench_rocker 30 true ;;;
                ControlArm_rotate bench_ca 90 true) bench_heap 1%nat.
Proof.
  apply (rotations_of_separate_links_commute bench_ca bench_rocker 90 30
           true true bench_heap 1%nat).
  cbn. lia.
Defined.
